(** * pyctr: the SRL reader ([pyctr/type/srl.py]) and its helpers ([pyctr/util.py])

    A shallow embedding of the two Python modules, followed by the
    properties of the reader, the icon decoder, path normalisation,
    [roundup] and [decompose]. *)

From Stdlib Require Import ZArith NArith List Lia Bool.
From Stdlib Require Import Strings.String Strings.Ascii Strings.Byte.
From Stdlib Require Import Numbers.DecimalString.
From Stdlib Require Import Sorting.Sorted.
From stdpp Require Import base option numbers list gmap strings.

Local Open Scope Z_scope.

(** ** Python values *)

(** A Python [str] is its sequence of code points; [bytes] is a list of
    bytes.  [lit] reads a literal of the source. *)
Definition str := list N.
Definition bytes := list byte.

Definition lit (s : string) : str :=
  map N_of_ascii (list_ascii_of_string s).
Arguments lit : simpl never.

(** The exceptions the two modules can meet.  All but [KeyboardInterrupt]
    derive from [Exception]. *)
Inductive exn : Type :=
  | KeyError (key : str)
  | AttributeError (attr : string)
  | NameError (name : string)
  | TypeError
  | UnicodeDecodeError (position : nat)
  | ZeroDivisionError
  | OverflowError
  | KeyboardInterrupt.

Definition isinstance_Exception (e : exn) : bool :=
  match e with
  | KeyboardInterrupt => false
  | _ => true
  end.

Inductive result (A : Type) : Type :=
  | Ok (a : A)
  | Raise (e : exn).
Arguments Ok {A} a.
Arguments Raise {A} e.

(** [x ← r; k] runs [r] and hands its value to [k]; an exception of [r]
    propagates. *)
Global Instance result_ret : MRet result := @Ok.
Global Instance result_bind : MBind result := λ A B k r,
  match r with
  | Ok a => k a
  | Raise e => Raise e
  end.

(** [b[lo:hi]] for constant non-negative bounds: slices clip, they never
    raise. *)
Definition slice {A} (l : list A) (lo hi : nat) : list A :=
  take (hi - lo) (drop lo l).

(** [==] between the two kinds of value that [SRLReader.__init__]
    compares: an [int] never equals a [str]. *)
Inductive pyval : Type :=
  | PyInt (z : Z)
  | PyStr (s : str).

Definition py_eq (a b : pyval) : bool :=
  match a, b with
  | PyInt x, PyInt y => x =? y
  | PyStr s, PyStr t => bool_decide (s = t)
  | _, _ => false
  end.

(** [str(n)] of an [int]: its decimal numeral. *)
Definition str_of_int (z : Z) : str :=
  lit (NilZero.string_of_int (Z.to_int z)).

(** ** [pyctr/util.py] *)

Module util.

(** [int.from_bytes(b, 'little')] and [int.from_bytes(b, 'big')]. *)
Fixpoint readle (b : bytes) : Z :=
  match b with
  | [] => 0
  | x :: r => Z.of_N (Byte.to_N x) + 256 * readle r
  end.

Definition readbe (b : bytes) : Z :=
  fold_left (fun acc x => 256 * acc + Z.of_N (Byte.to_N x)) b 0.

(** *** [roundup]

    [offset / alignment] is Python's true division of two [int]s: the
    exact quotient rounded to the nearest binary64 number, ties to even
    (53 bits of precision, exponent of the last place at least -1074), or
    [OverflowError] beyond the binary64 range.  A float met here is
    finite, so it is kept as the dyadic number [mant * 2 ^ expo]. *)
Record float : Type := { mant : Z; expo : Z }.

(** The integer nearest to [n / d], ties to even ([0 <= n], [0 < d]). *)
Definition rne_div (n d : Z) : Z :=
  let q := n / d in
  let r := n mod d in
  if 2 * r <? d then q
  else if d <? 2 * r then q + 1
  else if Z.even q then q else q + 1.

(** [floor (log2 (n / d))] for [0 < n], [0 < d]. *)
Definition quot_log2 (n d : Z) : Z :=
  let e0 := Z.log2 n - Z.log2 d in
  let fits :=
    if 0 <=? e0 then d * 2 ^ e0 <=? n else d <=? n * 2 ^ (- e0) in
  if fits then e0 else e0 - 1.

Definition int_truediv (x a : Z) : result float :=
  if a =? 0 then Raise ZeroDivisionError
  else if x =? 0 then Ok {| mant := 0; expo := 0 |}
  else
    let n := Z.abs x in
    let d := Z.abs a in
    let sh := Z.max (quot_log2 n d - 52) (-1074) in
    let m :=
      if 0 <=? sh then rne_div n (d * 2 ^ sh)
      else rne_div (n * 2 ^ (- sh)) d in
    if (0 <=? sh) && (2 ^ 1024 <=? m * 2 ^ sh) then Raise OverflowError
    else Ok {| mant := Z.sgn x * Z.sgn a * m; expo := sh |}.

(** [math.ceil] of a finite float: an exact [int]. *)
Definition ceil (f : float) : Z :=
  if 0 <=? expo f then mant f * 2 ^ expo f
  else - ((- mant f) / 2 ^ (- expo f)).

Definition roundup (offset alignment : Z) : result Z :=
  q ← int_truediv offset alignment;
  Ok (ceil q * alignment).

(** *** [decompose]

    A flag class as [decompose] uses it: the members that iterating over
    the class yields, in definition order, and its [_value2member_map_].
    [member.value] and [m._value_] are the same attribute. *)
Record Member : Type := { _name_ : string; _value_ : Z }.

Record Flag : Type := {
  flag_members : list Member;
  _value2member_map_ : gmap Z Member
}.

(** [members.sort(key=lambda m: m._value_, reverse=True)]: descending and
    stable (members of equal value keep their order). *)
Fixpoint sort_insert (m : Member) (l : list Member) : list Member :=
  match l with
  | [] => [m]
  | y :: r =>
      if _value_ m <? _value_ y then y :: sort_insert m r else m :: y :: r
  end.

Definition sort_desc (l : list Member) : list Member :=
  foldr sort_insert [] l.

(** [member_value and member_value & value == member_value]: the member
    is not zero and all its bits are set in [value]. *)
Definition contained (value : Z) (member : Member) : bool :=
  negb (_value_ member =? 0)
  && (Z.land (_value_ member) value =? _value_ member).

Section decompose.

(** [util.py] calls [_high_bit] and neither defines nor imports it, so
    the helper is a parameter here.  [_high_bit_unbound] below is the
    module as it stands; [_high_bit_enum] is the helper of the standard
    [enum] module, whose [_decompose] has this very body. *)
Variable _high_bit : Z -> result Z.

(** The [for member in flag] loop, on the state (members, not_covered). *)
Definition scan_step (value : Z) (st : list Member * Z) (member : Member)
  : list Member * Z :=
  let member_value := _value_ member in
  if contained value member
  then (st.1 ++ [member], Z.land st.2 (Z.lnot member_value))
  else st.

(** The [while tmp] loop.  A round that leaves [tmp] as it was would be
    repeated for ever: [None] stands for a loop that does not end.  Every
    other round clears a set bit of [tmp], so as many rounds as [tmp]
    has binary digits are enough. *)
Fixpoint cover_bits (fuel : nat) (flag : Flag)
    (members : list Member) (not_covered tmp : Z)
  : option (result (list Member * Z)) :=
  if tmp =? 0 then Some (Ok (members, not_covered))
  else
    match fuel with
    | O => None
    | S fuel' =>
        match _high_bit tmp with
        | Raise e => Some (Raise e)
        | Ok k =>
            if k <? 0 then Some (Raise TypeError)
            else
              let flag_value := 2 ^ k in
              let st :=
                match _value2member_map_ flag !! flag_value with
                | Some m =>
                    (members ++ [m], Z.land not_covered (Z.lnot flag_value))
                | None => (members, not_covered)
                end in
              let tmp' := Z.land tmp (Z.lnot flag_value) in
              if tmp' =? tmp then None
              else cover_bits fuel' flag st.1 st.2 tmp'
        end
    end.

(** What follows the two loops. *)
Definition finish (flag : Flag) (value : Z) (st : list Member * Z)
  : list Member * Z :=
  let members := st.1 in
  let not_covered := st.2 in
  let members :=
    match members, _value2member_map_ flag !! value with
    | [], Some m => members ++ [m]
    | _, _ => members
    end in
  let members := sort_desc members in
  let members :=
    match members with
    | m0 :: rest =>
        if (1 <? length members)%nat && (_value_ m0 =? value)
        then rest else members
    | [] => members
    end in
  (members, not_covered).

Definition decompose (flag : Flag) (value : Z)
  : option (result (list Member * Z)) :=
  let not_covered := value in
  let negative := value <? 0 in
  let st := fold_left (scan_step value) (flag_members flag) ([], not_covered) in
  let looped :=
    if negb negative
    then cover_bits (S (Z.to_nat (Z.log2 st.2))) flag st.1 st.2 st.2
    else Some (Ok st) in
  match looped with
  | Some (Ok st') => Some (Ok (finish flag value st'))
  | Some (Raise e) => Some (Raise e)
  | None => None
  end.

End decompose.

(** The module as it stands: the name [_high_bit] is not bound. *)
Definition _high_bit_unbound (value : Z) : result Z :=
  Raise (NameError "_high_bit").

(** [enum._high_bit]: [value.bit_length() - 1]. *)
Definition _high_bit_enum (value : Z) : result Z :=
  Ok (Z.log2 (Z.abs value) + (if value =? 0 then -1 else 0)).

(** The bitwise OR of the values of a list of members. *)
Definition lor_values (ms : list Member) : Z :=
  foldr (fun m acc => Z.lor (_value_ m) acc) 0 ms.

(** The members of a class that are contained in a value, in definition
    order. *)
Fixpoint matched (value : Z) (ms : list Member) : list Member :=
  match ms with
  | [] => []
  | m :: r => if contained value m then m :: matched value r else matched value r
  end.

(** The bits of the input that lie in no member contained in it: the
    residual that the first loop leaves. *)
Definition uncovered (flag : Flag) (value : Z) : Z :=
  Z.land value (Z.lnot (lor_values (matched value (flag_members flag)))).

(** The order of the sorted members: each value is at most the one
    before it. *)
Definition by_value_desc (a b : Member) : Prop := _value_ b <= _value_ a.

End util.


(** ** Streams *)

(** The binary stream a reader is opened on: its bytes and the read
    position.  [read] returns fewer bytes at the end, it never raises. *)
Module BinaryIO.
Record t : Type := { contents : bytes; position : nat }.

Definition read (f : t) (n : nat) : bytes * t :=
  let data := take n (drop (position f) (contents f)) in
  (data, {| contents := contents f; position := position f + length data |}).

Definition seek (f : t) (pos : nat) : t :=
  {| contents := contents f; position := pos |}.
End BinaryIO.

(** Modelled from the spec: [SubsectionIO] of [pyctr/fileio.py], which is
    not among the sources.  The spec's SubsectionView is built from
    (parentStream, baseOffset, length); [read(n)] returns up to
    [min(n, length - position)] bytes read from the parent at
    [baseOffset + position] and advances the position.  A reader has one
    stream, its [_file]: every view of this development is over it, and
    reading through a view moves that stream.  The offsets that are read
    through here come from a header and are not negative. *)
Module SubsectionIO.
Record t : Type := { _offset : Z; _size : Z; _seek : Z }.

Definition new (offset size : Z) : t :=
  {| _offset := offset; _size := size; _seek := 0 |}.

Definition read (v : t) (parent : BinaryIO.t) (n : Z)
  : bytes * t * BinaryIO.t :=
  let n := Z.min n (_size v - _seek v) in
  let parent := BinaryIO.seek parent (Z.to_nat (_offset v + _seek v)) in
  let '(data, parent) := BinaryIO.read parent (Z.to_nat n) in
  (data,
   {| _offset := _offset v; _size := _size v;
      _seek := _seek v + Z.of_nat (length data) |},
   parent).
End SubsectionIO.

(** ** [str] methods *)

(** [s.lower()].  Up to U+00FF this is Python's table.  Above it the
    table is not reproduced: no code point there has a lower-case form
    that ends in one of [.], [b], [i], [n] (U+0130 gives [i] followed by
    U+0307), so [endswith (lower p) ".bin"] is what Python computes. *)
Definition lower_cp (c : N) : N :=
  if ((65 <=? c) && (c <=? 90))%N then (c + 32)%N
  else if ((192 <=? c) && (c <=? 222) && negb (c =? 215))%N then (c + 32)%N
  else c.

Definition lower (s : str) : str := map lower_cp s.

Definition startswith (s prefix : str) : bool :=
  bool_decide (take (length prefix) s = prefix).

Definition endswith (s suffix : str) : bool :=
  (length suffix <=? length s)%nat
  && bool_decide (drop (length s - length suffix) s = suffix).

(** [s.strip(chars)]. *)
Fixpoint lstrip (chars : str) (s : str) : str :=
  match s with
  | c :: r => if bool_decide (c ∈ chars) then lstrip chars r else s
  | [] => []
  end.

Definition strip (chars : str) (s : str) : str :=
  rev (lstrip chars (rev (lstrip chars s))).

(** [s.splitlines()]: the line boundaries are LF, CR, CR LF, VT, FF, FS,
    GS, RS, NEL, LS and PS; the text after the last boundary is a line
    only when it is not empty. *)
Definition is_linebreak (c : N) : bool :=
  bool_decide (c ∈ [10; 13; 11; 12; 28; 29; 30; 133; 8232; 8233]%N).

Fixpoint splitlines_from (line : str) (s : str) : list str :=
  match s with
  | [] => match line with [] => [] | _ => [rev line] end
  | c :: r =>
      if is_linebreak c then
        rev line ::
          match r with
          | c' :: r' =>
              if ((c =? 13) && (c' =? 10))%N then splitlines_from [] r'
              else splitlines_from [] r
          | [] => splitlines_from [] r
          end
      else splitlines_from (c :: line) r
  end.

Definition splitlines (s : str) : list str := splitlines_from [] s.

(** [sep.join(l)]. *)
Fixpoint join (sep : str) (l : list str) : str :=
  match l with
  | [] => []
  | [x] => x
  | x :: r => x ++ sep ++ join sep r
  end.

(** [b.decode("utf-16le")], strict: an odd byte at the end, a surrogate
    without its partner or a low surrogate first raise
    [UnicodeDecodeError], at the first offending position. *)
Fixpoint decode_utf16le_at (pos : nat) (b : bytes) : result str :=
  match b with
  | [] => Ok []
  | [_] => Raise (UnicodeDecodeError pos)
  | b0 :: b1 :: rest =>
      let u := (Byte.to_N b0 + 256 * Byte.to_N b1)%N in
      if ((u <? 55296) || (57343 <? u))%N then
        s ← decode_utf16le_at (pos + 2) rest; Ok (u :: s)
      else if (u <? 56320)%N then
        match rest with
        | c0 :: c1 :: rest' =>
            let w := (Byte.to_N c0 + 256 * Byte.to_N c1)%N in
            if ((56320 <=? w) && (w <=? 57343))%N then
              s ← decode_utf16le_at (pos + 4) rest';
              Ok ((65536 + (u - 55296) * 1024 + (w - 56320))%N :: s)
            else Raise (UnicodeDecodeError pos)
        | _ => Raise (UnicodeDecodeError pos)
        end
      else Raise (UnicodeDecodeError pos)
  end.

Definition decode_utf16le (b : bytes) : result str := decode_utf16le_at 0 b.

(** [range(start, stop, step)] for non-negative bounds and a positive step. *)
Definition range (start stop step : nat) : list nat :=
  map (fun i => start + i * step)%nat (seq 0 ((stop - start + step - 1) / step)).


(** ** [pyctr/type/srl.py] *)

Module srl.

Definition region_names : list str :=
  map lit
    ["Japanese"; "English"; "French"; "German"; "Italian"; "Spanish";
     "Simplified Chinese"; "Korean"; "Dutch"; "Portuguese"; "Russian";
     "Traditional Chinese"]%string.

(** The order of the names to check: English is put before Japanese. *)
Definition _region_order_check : list str :=
  map lit
    ["English"; "Japanese"; "French"; "German"; "Italian"; "Spanish";
     "Simplified Chinese"; "Korean"; "Dutch"; "Portuguese"; "Russian";
     "Traditional Chinese"]%string.

Definition _region_lock_names : list str :=
  map lit ["JPN"; "USA"; "EUR"; "EUR"; "CHN"; "KOR"; "TWN"; "FREE"]%string.

Definition SRLICON_SIZE : Z := 0x2400.

Definition _normalize_path (p : str) : str :=
  let p := if startswith p (lit "/") then drop 1 p else p in
  let p := if endswith (lower p) (lit ".bin") then take 4 p else p in
  p.

(** An entry of the reader's table, as [open] uses it: [entry.offset] and
    [entry.size]. *)
Module Entry.
Record t : Type := { offset : Z; size : Z }.
End Entry.

Module AppTitle.
Record t : Type := { short_desc : str; long_desc : str; publisher : str }.
End AppTitle.

Module SRLIcon.

Record t : Type := {
  names : gmap str (option AppTitle.t);
  regionlocks : str;
  small_icon : option bytes;
  palette_icon : option bytes
}.

(** [__init__]: [names] gets one key per region name, with [None] for a
    region the argument has no title for. *)
Definition init (names : gmap str AppTitle.t) (region_lock_allowed : str)
    (small_icon palette_icon : option bytes) : t :=
  {| names := list_to_map (map (fun n => (n, names !! n)) region_names);
     regionlocks := region_lock_allowed;
     small_icon := small_icon;
     palette_icon := palette_icon |}.

(** The [language] argument: one name or a tuple of names. *)
Inductive language_arg : Type :=
  | Name (s : str)
  | Names (l : list str).

(** [AppTitle("unknown", "unknown", "unknown")]. *)
Definition unknown : AppTitle.t :=
  {| AppTitle.short_desc := lit "unknown";
     AppTitle.long_desc := lit "unknown";
     AppTitle.publisher := lit "unknown" |}.

(** The [for lang in language] loop.  [self.names[lang]] raises [KeyError]
    for a key the mapping does not have.  [if apptitle:] is false on
    [None] and true on an [AppTitle], a tuple of three fields, whatever
    the fields hold. *)
Fixpoint first_title (self : t) (language : list str) : result AppTitle.t :=
  match language with
  | [] => Ok unknown
  | lang :: rest =>
      match names self !! lang with
      | None => Raise (KeyError lang)
      | Some apptitle =>
          match apptitle with
          | Some title => Ok title
          | None => first_title self rest
          end
      end
  end.

(** [if isinstance(language, str): language = (language,)]. *)
Definition language_tuple (language : language_arg) : list str :=
  match language with
  | Name s => [s]
  | Names l => l
  end.

Definition get_app_title (self : t) (language : language_arg)
  : result AppTitle.t :=
  first_title self (language_tuple language).

(** The title of one 0x100-byte record. *)
Definition record_title (app_title : bytes) : result AppTitle.t :=
  decoded ← decode_utf16le (slice app_title 0 0x100);
  let title_string := splitlines (strip [0%N] decoded) in
  Ok match title_string with
     | [l0; l1; l2] =>
         {| AppTitle.short_desc := l0;
            AppTitle.long_desc := l0 ++ lit " " ++ l1;
            AppTitle.publisher := l2 |}
     | [l0; l1] =>
         {| AppTitle.short_desc := l0;
            AppTitle.long_desc := l0;
            AppTitle.publisher := l1 |}
     | _ =>
         {| AppTitle.short_desc := [];
            AppTitle.long_desc := [];
            AppTitle.publisher := [] |}
     end.

(** The [for app_title, region in zip(...)] loop. *)
Fixpoint load_titles (pairs : list (bytes * str))
    (names : gmap str AppTitle.t) : result (gmap str AppTitle.t) :=
  match pairs with
  | [] => Ok names
  | (app_title, region) :: rest =>
      title ← record_title app_title;
      load_titles rest (<[region := title]> names)
  end.

(** [load], after [fp.read(SRLICON_SIZE)] returned [srlicon].  The set
    of lock names is joined in the order of [elements]; the string is
    overwritten before it is used. *)
Definition load_block (srlicon : bytes) : result t :=
  let app_structs := slice srlicon 0x240 0x0A40 in
  names ←
    load_titles
      (zip (map (fun x => slice app_structs x (x + 0x100)) (range 0 0x800 0x100))
           region_names)
      ∅;
  let region_lockout := util.readle (slice srlicon 0x2018 (0x2018 + 4)) in
  let regions :=
    if region_lockout =? 0x7FFFFFFF then lit "ALL"
    else
      let regionlist :=
        omap (fun i =>
                if negb (Z.land region_lockout (Z.shiftl 1 (Z.of_nat i)) =? 0)
                then _region_lock_names !! i else None)
             (range 0 7 1) in
      join (lit ",") (elements (list_to_set regionlist : gset str)) in
  let regions := lit "" in
  let small_icon := slice srlicon 0x20 (0x20 + 0x200) in
  let palette_icon := slice srlicon 0x220 (0x220 + 0x20) in
  Ok (init names regions (Some small_icon) (Some palette_icon)).

(** [load(fp)] on a view [fp] over the stream [parent]: the outcome, and
    the stream as the read left it. *)
Definition load (fp : SubsectionIO.t) (parent : BinaryIO.t)
  : result t * BinaryIO.t :=
  let '(srlicon, _, parent) :=
    SubsectionIO.read fp parent SRLICON_SIZE in
  (load_block srlicon, parent).

(** [load(fp)] on a stream itself, as [from_file] calls it on the file it
    opened. *)
Definition load_stream (fp : BinaryIO.t) : result t * BinaryIO.t :=
  let '(srlicon, fp) := BinaryIO.read fp (Z.to_nat SRLICON_SIZE) in
  (load_block srlicon, fp).

(** [__repr__], for an object whose class is [SRLIcon] itself:
    [get_app_title()] is called with the default order. *)
Definition repr (self : t) : result str :=
  title ← get_app_title self (Names _region_order_check);
  Ok (lit "<SRLIcon title: " ++ AppTitle.short_desc title ++ lit ">").

End SRLIcon.

Module SRLReader.

(** The attributes of a reader.  [icon = None] is a reader without the
    attribute [icon].  [entries] is not assigned anywhere in [srl.py]:
    it is taken as given. *)
Record t : Type := {
  _file : BinaryIO.t;
  entries : gmap str Entry.t;
  apptitle : bytes;
  regionlocks : str;
  shortDesc : str;
  longDesc : str;
  _icon_offset : Z;
  icon : option SRLIcon.t
}.

(** [self.icon]. *)
Definition getattr_icon (self : t) : result SRLIcon.t :=
  match icon self with
  | Some i => Ok i
  | None => Raise (AttributeError "icon")
  end.

Definition set_file (self : t) (file : BinaryIO.t) : t :=
  {| _file := file; entries := entries self; apptitle := apptitle self;
     regionlocks := regionlocks self; shortDesc := shortDesc self;
     longDesc := longDesc self; _icon_offset := _icon_offset self;
     icon := icon self |}.

Definition set_icon (self : t) (i : SRLIcon.t) : t :=
  {| _file := _file self; entries := entries self; apptitle := apptitle self;
     regionlocks := regionlocks self; shortDesc := shortDesc self;
     longDesc := longDesc self; _icon_offset := _icon_offset self;
     icon := Some i |}.

(** The icon decoding that [_load_icon] attempts: [SRLIcon.load] on a
    view of [SRLICON_SIZE] bytes at [_icon_offset]. *)
Definition icon_attempt (self : t) : result SRLIcon.t * BinaryIO.t :=
  SRLIcon.load (SubsectionIO.new (_icon_offset self) SRLICON_SIZE) (_file self).

(** [_load_icon]: the assignment to [self.icon] is the last step of the
    [try] body; [except (Exception): pass] handles what derives from
    [Exception], anything else propagates. *)
Definition _load_icon (self : t) : result t :=
  let '(loaded, file) := icon_attempt self in
  let self := set_file self file in
  match loaded with
  | Ok i => Ok (set_icon self i)
  | Raise e => if isinstance_Exception e then Ok self else Raise e
  end.

(** [__init__] up to the call of [_load_icon], on the stream [fp] that
    the base class opened, for a reader whose table of entries is
    [entries].  The lock, [closefd] and the keyword [_load_icon], which
    the body never reads, play no part. *)
Definition init_header (fp : BinaryIO.t) (entries : gmap str Entry.t) : t :=
  let '(header, file) := BinaryIO.read fp 0x180 in
  let unitcode := util.readbe (slice header 0x12 0x13) in
  let apptitle := slice header 0x0 0x12 in
  let regionlocks := lit "" in
  let '(regionlocks, file) :=
    if negb (Z.land unitcode 0x01 =? 0) then
      let '(extheader, file) := BinaryIO.read file 0xE80 in
      let region_lockout := util.readle (slice extheader 0x34 0x35) in
      (if py_eq (PyInt region_lockout) (PyStr (lit "0x0")) then lit "Normal"
       else if py_eq (PyInt region_lockout) (PyStr (lit "0x80")) then lit "China"
       else if py_eq (PyInt region_lockout) (PyStr (lit "0x40")) then lit "Korea"
       else str_of_int region_lockout,
       file)
    else (regionlocks, file) in
  {| _file := file; entries := entries; apptitle := apptitle;
     regionlocks := regionlocks; shortDesc := lit ""; longDesc := lit "";
     _icon_offset := util.readle (slice header 0x068 (0x68 + 4));
     icon := None |}.

Definition init (fp : BinaryIO.t) (entries : gmap str Entry.t) : result t :=
  _load_icon (init_header fp entries).

(** What [open] returns: a view of the stream, or an [_SRLFSOpenFile]
    with its [_path] and [_info]. *)
Inductive open_file : Type :=
  | View (v : SubsectionIO.t)
  | _SRLFSOpenFile (_path : str) (_info : Entry.t).

(** [open] returns the lines it printed and the object opened. *)
Definition open (self : t) (path : str) (normalize : bool)
  : result (list str * open_file) :=
  let path := if normalize then _normalize_path path else path in
  match entries self !! path with
  | None => Raise (KeyError path)
  | Some entry =>
      if Entry.offset entry =? -1 then
        match entries self !! path with
        | None => Raise (KeyError path)
        | Some info => Ok ([lit "Test"], _SRLFSOpenFile path info)
        end
      else
        Ok ([], View (SubsectionIO.new (_icon_offset self) (Entry.size entry)))
  end.

End SRLReader.

End srl.

(** ** Sample inputs *)


Definition flag_RWX : util.Flag :=
  {| util.flag_members := [ {| util._name_ := "R"; util._value_ := 4 |};
                            {| util._name_ := "W"; util._value_ := 2 |};
                            {| util._name_ := "X"; util._value_ := 1 |} ];
     util._value2member_map_ :=
       {[ 4 := {| util._name_ := "R"; util._value_ := 4 |};
          2 := {| util._name_ := "W"; util._value_ := 2 |};
          1 := {| util._name_ := "X"; util._value_ := 1 |} ]} |}.




Definition zeros (n : nat) : bytes := repeat Byte.x00 n.

Definition stream_of (b : bytes) : BinaryIO.t :=
  {| BinaryIO.contents := b; BinaryIO.position := 0 |}.

(** A stream whose icon block is at offset 0 and whose first title
    record begins with a low surrogate. *)
Definition lone_surrogate_stream : BinaryIO.t :=
  stream_of (zeros 0x241 ++ [Byte.xdc]).

(** A container whose unit code is 0x01 and whose extended header holds
    0x80 at 0x34. *)
Definition china_stream : BinaryIO.t :=
  stream_of (zeros 0x12 ++ [Byte.x01] ++ zeros (0x180 - 0x13)
             ++ zeros 0x34 ++ [Byte.x80]).

(** A header whose icon offset (0x68, little-endian) is 0x1000, and a
    table with one entry, [icon], at offset 0x200 and of size 0x10. *)
Definition offset_stream : BinaryIO.t :=
  stream_of (zeros 0x69 ++ [Byte.x10] ++ zeros (0x180 - 0x6a)).

Definition icon_entries : gmap str srl.Entry.t :=
  {[ lit "icon" := {| srl.Entry.offset := 0x200; srl.Entry.size := 0x10 |} ]}.

(** ** Exceptions through [≫=] *)

Lemma bind_raise_inv {A B} (r : result A) (k : A -> result B) e :
  (r ≫= k) = Raise e -> r = Raise e \/ exists a, r = Ok a /\ k a = Raise e.
Proof.
  destruct r as [a|e']; cbn; [right; eauto|left; congruence].
Qed.

Lemma bind_ok_inv {A B} (r : result A) (k : A -> result B) b :
  (r ≫= k) = Ok b -> exists a, r = Ok a /\ k a = Ok b.
Proof. destruct r as [a|e']; cbn; [eauto|discriminate]. Qed.

(** ** The region lock of the extended header *)

Lemma py_eq_int_str z s : py_eq (PyInt z) (PyStr s) = false.
Proof. reflexivity. Qed.

(** Whatever the stream, a reader whose unit code has its low bit set gets
    the decimal numeral of the raw region-lockout byte as its
    [regionlocks]: none of the three labels is ever chosen. *)
Lemma init_header_regionlocks fp entries :
  let header := (BinaryIO.read fp 0x180).1 in
  let extheader := (BinaryIO.read (BinaryIO.read fp 0x180).2 0xE80).1 in
  srl.SRLReader.regionlocks (srl.SRLReader.init_header fp entries) =
    if negb (Z.land (util.readbe (slice header 0x12 0x13)) 0x01 =? 0)
    then str_of_int (util.readle (slice extheader 0x34 0x35))
    else lit "".
Proof.
  unfold srl.SRLReader.init_header. cbn zeta.
  destruct (BinaryIO.read fp 384) as [header file] eqn:Hh. cbn [fst snd].
  destruct (negb _); [|reflexivity].
  destruct (BinaryIO.read file 3712) as [extheader file'].
  rewrite !py_eq_int_str. reflexivity.
Qed.

Lemma _load_icon_regionlocks self r :
  srl.SRLReader._load_icon self = Ok r ->
  srl.SRLReader.regionlocks r = srl.SRLReader.regionlocks self.
Proof.
  unfold srl.SRLReader._load_icon.
  destruct (srl.SRLReader.icon_attempt self) as [[i|e] file].
  - intros [= <-]. reflexivity.
  - destruct (isinstance_Exception e); [|discriminate].
    intros [= <-]. reflexivity.
Qed.

Lemma init_regionlocks fp entries r :
  srl.SRLReader.init fp entries = Ok r ->
  negb (Z.land (util.readbe (slice (BinaryIO.read fp 0x180).1 0x12 0x13)) 0x01
        =? 0) = true ->
  srl.SRLReader.regionlocks r =
    str_of_int
      (util.readle
         (slice (BinaryIO.read (BinaryIO.read fp 0x180).2 0xE80).1 0x34 0x35)).
Proof.
  intros Hinit Hunit. apply _load_icon_regionlocks in Hinit.
  rewrite Hinit, init_header_regionlocks. cbn zeta. rewrite Hunit. reflexivity.
Qed.

(** C1, at a container with unit code 0x01 and region-lockout byte 0x80:
    the reader's [regionlocks] is the numeral "128", not the label
    "China" that the claim asks for. *)
Theorem regionlocks_0x80_is_numeral :
  exists r,
    srl.SRLReader.init china_stream ∅ = Ok r
    /\ srl.SRLReader.regionlocks r = lit "128"
    /\ srl.SRLReader.regionlocks r <> lit "China".
Proof.
  eexists. split; [vm_compute; reflexivity|]. split; [reflexivity|discriminate].
Qed.

(** ** [open] *)

(** An entry that is stored in the container is opened as a view of the
    entry's size at the reader's icon offset. *)
Lemma open_stored_entry self (path : str) (normalize : bool) entry :
  srl.SRLReader.entries self
    !! (if normalize then srl._normalize_path path else path) = Some entry ->
  srl.Entry.offset entry <> -1 ->
  srl.SRLReader.open self path normalize =
    Ok ([], srl.SRLReader.View
              (SubsectionIO.new (srl.SRLReader._icon_offset self)
                                (srl.Entry.size entry))).
Proof.
  intros Hentry Hoff. unfold srl.SRLReader.open. rewrite Hentry.
  destruct (Z.eqb_spec (srl.Entry.offset entry) (-1)); [contradiction|reflexivity].
Qed.

(** C2, at a reader whose icon offset is 0x1000 and whose entry [icon] is
    at offset 0x200 with size 0x10: the view that [open] returns starts at
    0x1000, the icon offset, and not at the entry's offset. *)
Theorem open_view_starts_at_icon_offset :
  exists r v,
    srl.SRLReader.init offset_stream icon_entries = Ok r
    /\ srl.SRLReader.open r (lit "icon") true = Ok ([], srl.SRLReader.View v)
    /\ SubsectionIO._offset v = 0x1000
    /\ SubsectionIO._size v = 0x10
    /\ (srl.Entry.offset <$> icon_entries !! lit "icon") = Some 0x200.
Proof.
  do 2 eexists. split; [vm_compute; reflexivity|].
  split; [vm_compute; reflexivity|]. repeat split.
Qed.



(** ** Path normalisation *)

Lemma lit_slash : lit "/" = [47%N].
Proof. reflexivity. Qed.

Lemma lit_slash2 : lit "//" = [47%N; 47%N].
Proof. reflexivity. Qed.

Lemma startswith_slash_cons c (p : str) :
  startswith (c :: p) (lit "/") = bool_decide (c = 47%N).
Proof.
  rewrite lit_slash. unfold startswith. cbn [length take].
  apply bool_decide_ext. split; [intros [= ->]|intros ->]; reflexivity.
Qed.

Lemma startswith_slash_take (p : str) :
  startswith (take 4 p) (lit "/") = startswith p (lit "/").
Proof.
  destruct p as [|c p]; [reflexivity|].
  cbn [take]. rewrite !startswith_slash_cons. reflexivity.
Qed.

Lemma startswith_slash_drop (p : str) :
  startswith p (lit "//") = false ->
  startswith (if startswith p (lit "/") then drop 1 p else p) (lit "/") = false.
Proof.
  destruct (startswith p (lit "/")) eqn:Hs; [|auto].
  destruct p as [|c [|c' p]]; try reflexivity.
  rewrite startswith_slash_cons in Hs. apply bool_decide_eq_true in Hs as ->.
  rewrite lit_slash2. unfold startswith at 1. cbn [length take drop].
  rewrite startswith_slash_cons. intros H%bool_decide_eq_false.
  apply bool_decide_eq_false. intros ->. apply H. reflexivity.
Qed.

Lemma normalize_fixed (q : str) :
  startswith q (lit "/") = false ->
  (endswith (lower q) (lit ".bin") = true -> take 4 q = q) ->
  srl._normalize_path q = q.
Proof.
  intros Hs He. unfold srl._normalize_path. rewrite Hs.
  destruct (endswith (lower q) (lit ".bin")); auto.
Qed.

(** C7, as amended: on a path that does not begin with two separators,
    normalising a second time changes nothing. *)
Theorem normalize_idempotent_single_slash (p : str) :
  startswith p (lit "//") = false ->
  srl._normalize_path (srl._normalize_path p) = srl._normalize_path p.
Proof.
  intros Hp%startswith_slash_drop. unfold srl._normalize_path at 2 3.
  set (q := if startswith p (lit "/") then drop 1 p else p) in *.
  cbn zeta.
  destruct (endswith (lower q) (lit ".bin")) eqn:He.
  - apply normalize_fixed.
    + rewrite startswith_slash_take. exact Hp.
    + intros _. apply take_take.
  - apply normalize_fixed; [exact Hp|]. rewrite He. discriminate.
Qed.

Lemma normalize_idempotent_single_slash_witness :
  startswith (lit "/foo.bin") (lit "//") = false
  /\ srl._normalize_path (srl._normalize_path (lit "/foo.bin"))
     = srl._normalize_path (lit "/foo.bin").
Proof.
  split; [reflexivity|].
  apply (normalize_idempotent_single_slash (lit "/foo.bin")). reflexivity.
Defined.

Lemma normalize_slash_shorter (r : str) :
  startswith r (lit "/") = true ->
  (length (srl._normalize_path r) < length r)%nat.
Proof.
  intros Hr. unfold srl._normalize_path. rewrite Hr.
  destruct r as [|c r]; [discriminate|]. cbn [drop length].
  rewrite drop_0. destruct (endswith _ _); [rewrite length_take|]; lia.
Qed.

(** Two leading separators are the only obstacle: the normal form of
    such a path still begins with a separator, which a second
    normalisation removes. *)
Lemma normalize_double_slash_not_idempotent (p : str) :
  startswith p (lit "//") = true ->
  srl._normalize_path (srl._normalize_path p) <> srl._normalize_path p.
Proof.
  intros Hp Heq.
  assert (Hs : startswith (srl._normalize_path p) (lit "/") = true).
  { revert Hp. rewrite lit_slash2. unfold startswith at 1. cbn [length].
    intros H%bool_decide_eq_true.
    destruct p as [|c [|c' p]]; try discriminate. cbn in H. injection H as -> ->.
    unfold srl._normalize_path. rewrite startswith_slash_cons.
    rewrite bool_decide_eq_true_2 by reflexivity. cbn [drop].
    destruct (endswith _ _); [rewrite startswith_slash_take|];
      rewrite startswith_slash_cons; apply bool_decide_eq_true_2; reflexivity. }
  apply normalize_slash_shorter in Hs. rewrite Heq in Hs. lia.
Qed.

(** C7, as the claim states it, fails at [//a]: the first normalisation
    gives [/a], the second [a]. *)
Lemma normalize_twice_double_slash :
  srl._normalize_path (lit "//a") = lit "/a"
  /\ srl._normalize_path (srl._normalize_path (lit "//a")) = lit "a"
  /\ srl._normalize_path (srl._normalize_path (lit "//a"))
     <> srl._normalize_path (lit "//a").
Proof. repeat split. discriminate. Qed.

Lemma endswith_app (s suffix : str) : endswith (s ++ suffix) suffix = true.
Proof.
  unfold endswith. rewrite length_app. apply andb_true_intro. split.
  - apply Nat.leb_le. lia.
  - apply bool_decide_eq_true_2.
    replace (length s + length suffix - length suffix)%nat with (length s) by lia.
    apply drop_app_length.
Qed.

(** What the code makes of the spelling [/name.bin]: the first four code
    points of [name.bin], not [name]. *)
Lemma normalize_slash_bin (name : str) :
  srl._normalize_path (lit "/" ++ name ++ lit ".bin") = take 4 (name ++ lit ".bin").
Proof.
  unfold srl._normalize_path. rewrite lit_slash. cbn [app].
  rewrite startswith_slash_cons, bool_decide_eq_true_2 by reflexivity.
  cbn [drop]. rewrite drop_0. unfold lower at 1. rewrite map_app.
  change (map lower_cp (lit ".bin")) with (lit ".bin").
  rewrite endswith_app. reflexivity.
Qed.

(** The two spellings do agree for a name of exactly four code points,
    such as [icon] or [logo]. *)
Lemma normalize_four_letter_name (name : str) :
  length name = 4%nat ->
  startswith name (lit "/") = false ->
  endswith (lower name) (lit ".bin") = false ->
  srl._normalize_path (lit "/" ++ name ++ lit ".bin") = srl._normalize_path name.
Proof.
  intros Hlen Hs He. rewrite normalize_slash_bin.
  rewrite take_app_length' by (symmetry; exact Hlen).
  symmetry. apply normalize_fixed; [exact Hs|]. rewrite He. discriminate.
Qed.

(** C6, at the spec's own example: [/foo.bin] is normalised to [foo.],
    with the dot, and [foo] to itself, so the two spellings differ. *)
Theorem normalize_foo_bin_differs :
  srl._normalize_path (lit "/foo.bin") = lit "foo."
  /\ srl._normalize_path (lit "foo") = lit "foo"
  /\ srl._normalize_path (lit "/foo.bin") <> srl._normalize_path (lit "foo").
Proof. repeat split. discriminate. Qed.

(** ** Icon decoding during construction *)

Section icon.
Import srl.

(** Decoding raises nothing but [UnicodeDecodeError]. *)
Lemma decode_utf16le_at_raises (n : nat) : forall (b : bytes) pos e,
  (length b <= n)%nat ->
  decode_utf16le_at pos b = Raise e -> exists p, e = UnicodeDecodeError p.
Proof.
  induction n as [|n IH]; intros b pos e Hlen.
  - destruct b; [discriminate|cbn in Hlen; lia].
  - destruct b as [|b0 [|b1 rest]]; cbn [decode_utf16le_at].
    + discriminate.
    + intros [= <-]. eauto.
    + cbn [length] in Hlen.
      destruct (_ || _)%bool.
      * destruct (decode_utf16le_at (pos + 2) rest) eqn:Hd; [discriminate|].
        intros [= <-]. apply (IH rest (pos + 2)%nat); [lia|exact Hd].
      * destruct (_ <? _)%N; [|intros [= <-]; eauto].
        destruct rest as [|c0 [|c1 rest']]; try (intros [= <-]; eauto).
        destruct (_ && _)%bool; [|intros [= <-]; eauto].
        destruct (decode_utf16le_at (pos + 4) rest') eqn:Hd; [discriminate|].
        intros [= <-]. apply (IH rest' (pos + 4)%nat); [cbn [length] in Hlen; lia|exact Hd].
Qed.

Lemma record_title_raises app_title e :
  SRLIcon.record_title app_title = Raise e -> exists p, e = UnicodeDecodeError p.
Proof.
  unfold SRLIcon.record_title, decode_utf16le.
  intros [Hd|(s & _ & [=])]%bind_raise_inv.
  eapply decode_utf16le_at_raises; [reflexivity|exact Hd].
Qed.

Lemma load_titles_raises pairs : forall names e,
  SRLIcon.load_titles pairs names = Raise e -> exists p, e = UnicodeDecodeError p.
Proof.
  induction pairs as [|[app_title region] rest IH]; intros names e.
  - discriminate.
  - cbn [SRLIcon.load_titles].
    intros [Ht|(title & _ & Hrest)]%bind_raise_inv.
    + eapply record_title_raises, Ht.
    + eapply IH, Hrest.
Qed.

Lemma load_block_raises srlicon e :
  SRLIcon.load_block srlicon = Raise e -> exists p, e = UnicodeDecodeError p.
Proof.
  unfold SRLIcon.load_block.
  intros [Ht|(names & _ & [=])]%bind_raise_inv.
  eapply load_titles_raises, Ht.
Qed.

Lemma icon_attempt_raises self e :
  (SRLReader.icon_attempt self).1 = Raise e -> isinstance_Exception e = true.
Proof.
  unfold SRLReader.icon_attempt, SRLIcon.load.
  destruct (SubsectionIO.read _ _ _) as [[srlicon v] parent]. cbn [fst].
  intros [p ->]%load_block_raises. reflexivity.
Qed.

Lemma init_header_icon fp entries :
  SRLReader.icon (SRLReader.init_header fp entries) = None.
Proof.
  unfold SRLReader.init_header.
  destruct (BinaryIO.read fp _) as [header file].
  destruct (negb _); [destruct (BinaryIO.read file _)|]; reflexivity.
Qed.

(** [_load_icon] returns, with the icon when the attempt gave one and
    with the [icon] attribute untouched when it raised. *)
Lemma _load_icon_returns self :
  exists r,
    SRLReader._load_icon self = Ok r
    /\ SRLReader.icon r =
         match (SRLReader.icon_attempt self).1 with
         | Ok i => Some i
         | Raise _ => SRLReader.icon self
         end.
Proof.
  unfold SRLReader._load_icon.
  pose proof (icon_attempt_raises self) as Hexn.
  destruct (SRLReader.icon_attempt self) as [[i|e] file]; cbn [fst] in *.
  - eexists. split; reflexivity.
  - rewrite (Hexn e eq_refl). eexists. split; reflexivity.
Qed.

(** C4: on every stream, however short, [__init__] returns a reader;
    when the icon attempt raises, whatever the exception, the reader is
    the one without an icon. *)
Theorem init_survives_icon_failure fp entries :
  exists r,
    SRLReader.init fp entries = Ok r
    /\ forall e,
         (SRLReader.icon_attempt (SRLReader.init_header fp entries)).1 = Raise e ->
         SRLReader.icon r = None.
Proof.
  unfold SRLReader.init.
  destruct (_load_icon_returns (SRLReader.init_header fp entries)) as (r & Hr & Hicon).
  exists r. split; [exact Hr|]. intros e He.
  rewrite Hicon, He. apply init_header_icon.
Qed.

(** The icon attempt does raise on some streams: here the first title
    record begins with a low surrogate. *)
Lemma icon_attempt_lone_surrogate :
  (SRLReader.icon_attempt (SRLReader.init_header lone_surrogate_stream ∅)).1
  = Raise (UnicodeDecodeError 0).
Proof. vm_compute. reflexivity. Qed.

(** C10: after construction, reading [self.icon] raises [AttributeError]
    whenever the icon attempt raised, and gives an icon only when the
    attempt returned that icon. *)
Theorem icon_attribute_only_on_success fp entries r :
  SRLReader.init fp entries = Ok r ->
  (forall e,
      (SRLReader.icon_attempt (SRLReader.init_header fp entries)).1 = Raise e ->
      SRLReader.icon r = None
      /\ SRLReader.getattr_icon r = Raise (AttributeError "icon"))
  /\ (forall i,
        SRLReader.getattr_icon r = Ok i ->
        (SRLReader.icon_attempt (SRLReader.init_header fp entries)).1 = Ok i).
Proof.
  unfold SRLReader.init. intros Hinit.
  destruct (_load_icon_returns (SRLReader.init_header fp entries)) as (r' & Hr & Hicon).
  rewrite Hr in Hinit. injection Hinit as ->.
  rewrite init_header_icon in Hicon. unfold SRLReader.getattr_icon.
  split.
  - intros e He. rewrite He in Hicon. rewrite Hicon. split; reflexivity.
  - intros i. destruct (SRLReader.icon_attempt _).1 as [i'|e]; rewrite Hicon.
    + intros [= ->]. reflexivity.
    + discriminate.
Qed.

Lemma icon_attribute_only_on_success_witness :
  exists r,
    SRLReader.init lone_surrogate_stream ∅ = Ok r
    /\ SRLReader.icon r = None
    /\ SRLReader.getattr_icon r = Raise (AttributeError "icon").
Proof.
  eexists. split; [vm_compute; reflexivity|].
  eapply (icon_attribute_only_on_success lone_surrogate_stream ∅).
  - vm_compute. reflexivity.
  - exact icon_attempt_lone_surrogate.
Defined.

End icon.

(** ** Titles *)

Section titles.
Import srl.

Lemma lookup_list_to_map_keys {V} (f : str -> V) (keys : list str) (l : str) :
  (list_to_map (map (fun n => (n, f n)) keys) : gmap str V) !! l
  = if decide (l ∈ keys) then Some (f l) else None.
Proof.
  induction keys as [|k keys IH]; cbn [map list_to_map foldr].
  - rewrite lookup_empty. destruct (decide _) as [H|H]; [|reflexivity].
    apply elem_of_nil in H. contradiction.
  - change (foldr _ _ _) with (list_to_map (M := gmap str V) (map (fun n => (n, f n)) keys)).
    cbn [uncurry fst snd]. rewrite lookup_insert. destruct (decide (k = l)) as [->|Hne].
    + rewrite decide_True by (apply elem_of_cons; auto). reflexivity.
    + rewrite IH. destruct (decide (l ∈ keys)) as [Hin|Hnin].
      * rewrite decide_True by (apply elem_of_cons; auto). reflexivity.
      * rewrite decide_False; [reflexivity|].
        intros [->|Hin]%elem_of_cons; [apply Hne; reflexivity| apply Hnin, Hin].
Qed.

Lemma init_names_lookup names rl si pi (l : str) :
  SRLIcon.names (SRLIcon.init names rl si pi) !! l
  = if decide (l ∈ region_names) then Some (names !! l) else None.
Proof. exact (lookup_list_to_map_keys (fun n => names !! n) region_names l). Qed.

(** A loaded icon is one that [__init__] built. *)
Lemma load_block_init srlicon icon :
  SRLIcon.load_block srlicon = Ok icon ->
  exists names rl si pi, icon = SRLIcon.init names rl si pi.
Proof.
  unfold SRLIcon.load_block.
  intros (names & _ & [= <-])%bind_ok_inv. eauto.
Qed.

(** The first preferred language with a title, if there is one. *)
Lemma first_title_present (self : SRLIcon.t) (language : list str) :
  Forall (fun l => is_Some (SRLIcon.names self !! l)) language ->
  SRLIcon.first_title self language
  = Ok (default SRLIcon.unknown
          (head (omap (fun l => mjoin (SRLIcon.names self !! l)) language))).
Proof.
  induction 1 as [|l language [apptitle Hl] _ IH]; [reflexivity|].
  cbn [SRLIcon.first_title omap list_omap]. rewrite Hl. cbn [mjoin option_join].
  destruct apptitle as [title|]; [reflexivity|exact IH].
Qed.

(** C5, as amended: on a loaded icon and region names, [get_app_title]
    returns the title of the first preferred language whose entry is
    present, whatever its three strings hold, and the triple of
    "unknown" when the entry of every preferred language is [None]. *)
Theorem get_app_title_first_present srlicon icon language :
  SRLIcon.load_block srlicon = Ok icon ->
  Forall (fun l => l ∈ region_names) (SRLIcon.language_tuple language) ->
  exists title,
    SRLIcon.get_app_title icon language = Ok title
    /\ title = default SRLIcon.unknown
                 (head (omap (fun l => mjoin (SRLIcon.names icon !! l))
                             (SRLIcon.language_tuple language)))
    /\ (Forall (fun l => SRLIcon.names icon !! l = Some None)
               (SRLIcon.language_tuple language) ->
        title = SRLIcon.unknown).
Proof.
  intros (names & rl & si & pi & ->)%load_block_init Hregion.
  eexists. split; [|split; [reflexivity|]].
  - unfold SRLIcon.get_app_title. apply first_title_present.
    eapply Forall_impl; [exact Hregion|]. intros l Hl. cbn beta.
    rewrite init_names_lookup, decide_True by exact Hl. eauto.
  - clear Hregion. induction 1 as [|l ls Hl _ IH]; [reflexivity|].
    cbn [omap list_omap]. rewrite Hl. exact IH.
Qed.

Lemma get_app_title_first_present_witness :
  exists icon,
    SRLIcon.load_block (zeros 0x2400) = Ok icon
    /\ SRLIcon.get_app_title icon (SRLIcon.Names [lit "Dutch"; lit "Russian"])
       = Ok SRLIcon.unknown.
Proof.
  eexists. split; [vm_compute; reflexivity|].
  match goal with
  | |- SRLIcon.get_app_title ?icon ?language = _ =>
      destruct (get_app_title_first_present (zeros 0x2400) icon language)
        as (title & Htitle & _ & Hunknown)
  end.
  - vm_compute. reflexivity.
  - repeat constructor; vm_compute; set_solver.
  - rewrite Htitle. f_equal. apply Hunknown.
    repeat constructor; vm_compute; reflexivity.
Defined.

(** C5, as the claim states it, fails on the icon of a block of zeros:
    the English record is blank, the table holds the blank title for it,
    and [get_app_title] returns that blank title, not "unknown". *)
Lemma get_app_title_blank_title :
  exists icon,
    SRLIcon.load_block (zeros 0x2400) = Ok icon
    /\ SRLIcon.names icon !! lit "English"
       = Some (Some {| AppTitle.short_desc := [];
                       AppTitle.long_desc := [];
                       AppTitle.publisher := [] |})
    /\ SRLIcon.get_app_title icon (SRLIcon.Name (lit "English"))
       = Ok {| AppTitle.short_desc := [];
               AppTitle.long_desc := [];
               AppTitle.publisher := [] |}
    /\ SRLIcon.get_app_title icon (SRLIcon.Name (lit "English"))
       <> Ok SRLIcon.unknown.
Proof.
  eexists. split; [vm_compute; reflexivity|].
  split; [vm_compute; reflexivity|]. split; [vm_compute; reflexivity|].
  vm_compute. discriminate.
Qed.

(** The loop gives a title to each region it is handed and leaves the
    other keys alone. *)
Lemma load_titles_lookup pairs : forall names0 names (l : str),
  SRLIcon.load_titles pairs names0 = Ok names ->
  (l ∈ pairs.*2 -> is_Some (names !! l))
  /\ (l ∉ pairs.*2 -> names !! l = names0 !! l).
Proof.
  induction pairs as [|[app_title region] rest IH]; intros names0 names l.
  - intros [= <-]. split; [intros []%elem_of_nil|reflexivity].
  - cbn [SRLIcon.load_titles].
    intros (title & _ & Hrest)%bind_ok_inv.
    destruct (IH _ _ l Hrest) as [Hin Hout].
    cbn [fmap list_fmap snd]. rewrite elem_of_cons. split.
    + intros [->|Hl]; [|auto].
      destruct (decide (region ∈ rest.*2)) as [Hr|Hr]; [auto|].
      rewrite (proj2 (IH _ _ region Hrest) Hr), lookup_insert_eq. eauto.
    + intros Hl. rewrite Hout by tauto.
      apply lookup_insert_ne. intros ->. tauto.
Qed.

Lemma region_names_NoDup : NoDup region_names.
Proof. apply (bool_decide_unpack _). vm_compute. exact I. Qed.

Lemma load_pairs_regions {A} (f : nat -> A) :
  (zip (map f (range 0 0x800 0x100)) region_names).*2 = take 8 region_names.
Proof.
  assert (Hr : range 0 0x800 0x100
               = [0; 256; 512; 768; 1024; 1280; 1536; 1792]%nat)
    by (vm_compute; reflexivity).
  rewrite Hr. reflexivity.
Qed.

(** A loaded icon has a title, blank or not, for each of the first eight
    region names, the eight records that [range(0, 0x800, 0x100)] yields,
    and [None] for the last four. *)
Lemma load_block_names srlicon icon (l : str) :
  SRLIcon.load_block srlicon = Ok icon ->
  (l ∈ take 8 region_names ->
   exists title, SRLIcon.names icon !! l = Some (Some title))
  /\ (l ∈ drop 8 region_names -> SRLIcon.names icon !! l = Some None).
Proof.
  unfold SRLIcon.load_block.
  intros (names & Hnames & [= <-])%bind_ok_inv.
  pose proof (load_titles_lookup _ _ _ l Hnames) as [Hin Hout].
  rewrite load_pairs_regions in Hin, Hout.
  rewrite init_names_lookup. split; intros Hl.
  - rewrite decide_True.
    + destruct (Hin Hl) as [title ->]. eauto.
    + rewrite <- (take_drop 8 region_names). apply elem_of_app. auto.
  - rewrite decide_True.
    + rewrite Hout, lookup_empty; [reflexivity|].
      intros Hl'. pose proof region_names_NoDup as Hnd.
      rewrite <- (take_drop 8 region_names) in Hnd.
      apply NoDup_app in Hnd as (_ & Hdisjoint & _). exact (Hdisjoint l Hl' Hl).
    + rewrite <- (take_drop 8 region_names). apply elem_of_app. auto.
Qed.

(** So, with the default order, a loaded icon answers the title stored
    for English, whatever its three strings hold: [load] stores one in
    every icon it returns, and English comes first in the order. *)
Lemma get_app_title_default_order srlicon icon :
  SRLIcon.load_block srlicon = Ok icon ->
  exists title,
    SRLIcon.names icon !! lit "English" = Some (Some title)
    /\ SRLIcon.get_app_title icon (SRLIcon.Names _region_order_check) = Ok title.
Proof.
  intros Hload.
  destruct (proj1 (load_block_names _ _ (lit "English") Hload)) as [title Ht].
  { apply list_elem_of_lookup. exists 1%nat. reflexivity. }
  exists title. split; [exact Ht|].
  unfold SRLIcon.get_app_title, _region_order_check.
  cbn [SRLIcon.language_tuple map SRLIcon.first_title]. rewrite Ht. reflexivity.
Qed.

End titles.

(** ** [decompose] *)

Section decompose_facts.
Import util.

(** *** Bits *)



Lemma lor_values_testbit (ms : list Member) m k :
  m ∈ ms -> Z.testbit (_value_ m) k = true ->
  Z.testbit (lor_values ms) k = true.
Proof.
  induction ms as [|m' ms IH]; intros Hin Hbit.
  - apply elem_of_nil in Hin. contradiction.
  - cbn [lor_values foldr]. fold (lor_values ms). rewrite Z.lor_spec.
    apply elem_of_cons in Hin as [<-|Hin].
    + rewrite Hbit. reflexivity.
    + rewrite (IH Hin Hbit). apply orb_true_r.
Qed.

(** *** The first loop *)

Lemma contained_spec value m :
  contained value m = true
  <-> _value_ m <> 0 /\ Z.land (_value_ m) value = _value_ m.
Proof.
  unfold contained. rewrite andb_true_iff, negb_true_iff, Z.eqb_neq, Z.eqb_eq.
  reflexivity.
Qed.

Lemma elem_of_matched value (ms : list Member) m :
  m ∈ matched value ms <-> m ∈ ms /\ contained value m = true.
Proof.
  induction ms as [|m' ms IH]; cbn [matched].
  - rewrite elem_of_nil. tauto.
  - destruct (contained value m') eqn:Hc; rewrite ?(elem_of_cons (matched _ _)), IH, elem_of_cons.
    + split; [intros [->|[? ?]]; auto|tauto].
    + split; [tauto|intros [[->|?] ?]; [congruence|tauto]].
Qed.

Lemma scan_fold value (ms : list Member) : forall acc nc,
  fold_left (scan_step value) ms (acc, nc)
  = (acc ++ matched value ms,
     Z.land nc (Z.lnot (lor_values (matched value ms)))).
Proof.
  induction ms as [|m ms IH]; intros acc nc; cbn [fold_left matched].
  - rewrite app_nil_r. cbn. rewrite Z.land_m1_r. reflexivity.
  - unfold scan_step at 2. cbn [fst snd].
    destruct (contained value m); rewrite IH; [|reflexivity].
    rewrite <- app_assoc. cbn [app lor_values foldr].
    fold (lor_values (matched value ms)).
    f_equal. rewrite <- Z.land_assoc. f_equal.
    apply Z.bits_inj'. intros k Hk.
    rewrite Z.land_spec, !Z.lnot_spec, Z.lor_spec by exact Hk.
    symmetry. apply negb_orb.
Qed.

(** *** Sorting keeps the members *)



Lemma elem_of_sort_insert m x (l : list Member) :
  x ∈ sort_insert m l <-> x = m \/ x ∈ l.
Proof.
  induction l as [|y l IH]; cbn [sort_insert].
  - rewrite elem_of_cons. reflexivity.
  - destruct (_ <? _); rewrite !elem_of_cons, ?IH; tauto.
Qed.

Lemma elem_of_sort_desc x (l : list Member) : x ∈ sort_desc l <-> x ∈ l.
Proof.
  induction l as [|m l IH]; [reflexivity|].
  cbn [sort_desc foldr]. fold (sort_desc l).
  rewrite elem_of_sort_insert, IH, elem_of_cons. reflexivity.
Qed.


Lemma sort_insert_sorted m (l : list Member) :
  StronglySorted by_value_desc l -> StronglySorted by_value_desc (sort_insert m l).
Proof.
  induction 1 as [|y l Hl IH Hy]; cbn [sort_insert].
  - repeat constructor.
  - destruct (Z.ltb_spec (_value_ m) (_value_ y)) as [Hlt|Hge].
    + constructor; [exact IH|]. apply Forall_forall. intros x Hx.
      apply elem_of_sort_insert in Hx as [->|Hx].
      * unfold by_value_desc. lia.
      * rewrite Forall_forall in Hy. apply Hy, Hx.
    + constructor; [constructor; assumption|].
      constructor; [exact Hge|].
      eapply Forall_impl; [exact Hy|]. unfold by_value_desc. intros x Hx. lia.
Qed.

Lemma sort_desc_sorted (l : list Member) : StronglySorted by_value_desc (sort_desc l).
Proof.
  induction l as [|m l IH]; [constructor|].
  cbn [sort_desc foldr]. apply sort_insert_sorted, IH.
Qed.

(** *** The run without the second loop *)



Lemma decompose_unfold hb flag value :
  decompose hb flag value =
    match
      (if negb (value <? 0)
       then cover_bits hb (S (Z.to_nat (Z.log2 (uncovered flag value)))) flag
              (matched value (flag_members flag)) (uncovered flag value)
              (uncovered flag value)
       else Some (Ok (matched value (flag_members flag), uncovered flag value)))
    with
    | Some (Ok st) => Some (Ok (finish flag value st))
    | Some (Raise e) => Some (Raise e)
    | None => None
    end.
Proof. unfold decompose. cbn zeta. rewrite scan_fold. reflexivity. Qed.

(** A negative input skips the second loop, and an input whose bits are
    all in members it contains leaves the loop nothing to do: the helper
    is not called. *)
Lemma decompose_no_loop hb flag value :
  value < 0 \/ uncovered flag value = 0 ->
  decompose hb flag value
  = Some (Ok (finish flag value
                (matched value (flag_members flag), uncovered flag value))).
Proof.
  intros Hcase. rewrite decompose_unfold.
  destruct (Z.ltb_spec value 0) as [|Hnn]; [reflexivity|].
  destruct Hcase as [|Hz]; [lia|]. rewrite Hz. reflexivity.
Qed.




(** The condition on the map is needed: were the input -2 filed under a
    member of value 1, that member would be returned beside the residual
    -2, and the OR would be -1. *)
Lemma decompose_map_of_other_value :
  decompose _high_bit_unbound
    {| flag_members := [];
       _value2member_map_ := {[ -2 := {| _name_ := "A"; _value_ := 1 |} ]} |}
    (-2)
  = Some (Ok ([ {| _name_ := "A"; _value_ := 1 |} ], -2))
  /\ Z.lor (lor_values [ {| _name_ := "A"; _value_ := 1 |} ]) (-2) = -1.
Proof. split; vm_compute; reflexivity. Qed.

End decompose_facts.

(** ** [roundup] *)

Section roundup_facts.
Import util.

Lemma pow2_split a b : 0 <= a -> 0 <= b -> 2 ^ (a + b) = 2 ^ a * 2 ^ b /\ 0 < 2 ^ a /\ 0 < 2 ^ b.
Proof.
  intros Ha Hb. rewrite Z.pow_add_r by assumption.
  repeat split; apply Z.pow_pos_nonneg; lia.
Qed.

(** [quot_log2 n d] is the exponent of the quotient, here scaled so that
    only natural powers of two appear. *)
Lemma quot_log2_spec n d :
  0 < n -> 0 < d ->
  let e := quot_log2 n d in
  Z.log2 n - Z.log2 d - 1 <= e <= Z.log2 n - Z.log2 d
  /\ forall t, 0 <= t -> 0 <= e + t ->
       d * 2 ^ (e + t) <= n * 2 ^ t < 2 * (d * 2 ^ (e + t)).
Proof.
  intros Hn Hd. unfold quot_log2. cbn zeta.
  pose proof (Z.log2_spec n Hn) as [HnA HnB].
  pose proof (Z.log2_spec d Hd) as [HdA HdB].
  pose proof (Z.log2_nonneg n) as Hln. pose proof (Z.log2_nonneg d) as Hld.
  set (ln := Z.log2 n) in *. set (ld := Z.log2 d) in *.
  rewrite Z.pow_succ_r in HnB, HdB by assumption.
  destruct (Z.leb_spec 0 (ln - ld)) as [He0|He0].
  - destruct (pow2_split ld (ln - ld)) as (HAB & HB & HE); [lia..|].
    replace (ld + (ln - ld)) with ln in HAB by lia.
    destruct (Z.leb_spec (d * 2 ^ (ln - ld)) n) as [Hfit|Hfit].
    + split; [lia|]. intros t Ht Het.
      destruct (pow2_split (ln - ld) t) as (-> & _ & HT); [lia..|].
      set (E := 2 ^ (ln - ld)) in *. set (T := 2 ^ t) in *.
      assert (n < 2 * (d * E)) by nia.
      split; [apply (Z.mul_le_mono_nonneg_r _ _ T) in Hfit; lia|].
      assert (n * T < 2 * (d * E) * T) by (apply Z.mul_lt_mono_pos_r; lia). lia.
    + split; [lia|]. intros t Ht Het.
      destruct (pow2_split (ln - ld - 1 + t) 1) as (Hs & Hp & _); [lia..|].
      replace (ln - ld - 1 + t + 1) with (ln - ld + t) in Hs by lia.
      destruct (pow2_split (ln - ld) t) as (Hs' & _ & HT); [lia..|].
      change (2 ^ 1) with 2 in Hs.
      set (E := 2 ^ (ln - ld)) in *. set (T := 2 ^ t) in *.
      set (P := 2 ^ (ln - ld - 1 + t)) in *.
      assert (d * E <= 2 * n) by nia.
      assert (d * E * T <= 2 * n * T) by (apply Z.mul_le_mono_nonneg_r; lia).
      assert (n * T < d * E * T) by (apply Z.mul_lt_mono_pos_r; lia).
      nia.
  - destruct (pow2_split ln (- (ln - ld))) as (HAB & HA & HE); [lia..|].
    replace (ln + - (ln - ld)) with ld in HAB by lia.
    destruct (Z.leb_spec d (n * 2 ^ (- (ln - ld)))) as [Hfit|Hfit].
    + split; [lia|]. intros t Ht Het.
      destruct (pow2_split (- (ln - ld)) (ln - ld + t)) as (Hs & _ & HT); [lia..|].
      replace (- (ln - ld) + (ln - ld + t)) with t in Hs by lia. nia.
    + split; [lia|]. intros t Ht Het.
      destruct (pow2_split (- (ln - ld)) (ln - ld - 1 + t)) as (Hs & _ & HT); [lia..|].
      destruct (pow2_split (ln - ld - 1 + t) 1) as (Hs' & _ & _); [lia..|].
      replace (ln - ld - 1 + t + 1) with (ln - ld + t) in Hs' by lia.
      replace (- (ln - ld) + (ln - ld - 1 + t)) with (t - 1) in Hs by lia.
      change (2 ^ 1) with 2 in Hs'.
      destruct (pow2_split (t - 1) 1) as (Hs'' & _ & _); [lia..|].
      replace (t - 1 + 1) with t in Hs'' by lia. change (2 ^ 1) with 2 in Hs''.
      nia.
Qed.

(** Rounding [n * P / d] to the nearest integer stays within the same
    multiples of [P] as [n / d] does, when [d < 2 * P]. *)
Lemma rne_div_scaled n d P :
  0 < n -> 0 < d -> 0 < P -> d < 2 * P ->
  let k := (n + d - 1) / d in
  (k - 1) * P < rne_div (n * P) d <= k * P.
Proof.
  intros Hn Hd HP HdP k.
  assert (Hk : (k - 1) * d < n <= k * d).
  { pose proof (Z.div_mod (n + d - 1) d ltac:(lia)) as Hdm.
    pose proof (Z.mod_pos_bound (n + d - 1) d Hd) as Hr.
    fold k in Hdm. nia. }
  unfold rne_div. cbn zeta.
  pose proof (Z.div_mod (n * P) d ltac:(lia)) as Hdm.
  pose proof (Z.mod_pos_bound (n * P) d Hd) as Hr.
  set (q := n * P / d) in *. set (r := (n * P) mod d) in *.
  assert (Hlo : (k - 1) * d * P + P <= n * P) by nia.
  assert (Hhi : n * P <= k * d * P) by nia.
  assert (Hq1 : (k - 1) * P <= q) by nia.
  assert (Hq2 : q <= k * P) by nia.
  assert (Hr0 : q = k * P -> r = 0) by nia.
  assert (HrP : q = (k - 1) * P -> P <= r) by nia.
  destruct (Z.ltb_spec (2 * r) d); [|destruct (Z.ltb_spec d (2 * r));
                                     [|destruct (Z.even q)]]; lia.
Qed.

Lemma ceil_scaled m k P :
  0 < P -> (k - 1) * P < m <= k * P -> - (- m / P) = k.
Proof.
  intros HP Hm.
  assert (- m / P = - k); [|lia].
  symmetry. apply (Z.div_unique_pos _ _ _ (k * P - m)); lia.
Qed.

(** Below 2^53 the float quotient is close enough: [roundup] returns the
    smallest multiple of the alignment that is not below the offset. *)
Theorem roundup_exact_below_2_53 offset alignment :
  0 < offset < 2 ^ 53 -> 0 < alignment < 2 ^ 1022 ->
  roundup offset alignment
  = Ok ((offset + alignment - 1) / alignment * alignment).
Proof.
  intros Hx Ha. unfold roundup, int_truediv.
  destruct (Z.eqb_spec alignment 0); [lia|].
  destruct (Z.eqb_spec offset 0); [lia|].
  rewrite !Z.abs_eq by lia. rewrite !Z.sgn_pos by lia.
  destruct (quot_log2_spec offset alignment) as [He Hscale]; [lia..|].
  set (e := quot_log2 offset alignment) in *.
  assert (Z.log2 offset < 53) by (apply Z.log2_lt_pow2; lia).
  assert (Z.log2 alignment < 1022) by (apply Z.log2_lt_pow2; lia).
  pose proof (Z.log2_nonneg offset). pose proof (Z.log2_nonneg alignment).
  rewrite Z.max_l by lia.
  specialize (Hscale (52 - e) ltac:(lia) ltac:(lia)).
  replace (e + (52 - e)) with 52 in Hscale by lia.
  assert (HP : 0 < 2 ^ (52 - e)) by (apply Z.pow_pos_nonneg; lia).
  assert (HdP : alignment < 2 * 2 ^ (52 - e)).
  { assert (offset * 2 ^ (52 - e) < 2 ^ 53 * 2 ^ (52 - e))
      by (apply Z.mul_lt_mono_pos_r; lia).
    apply (Z.mul_lt_mono_pos_r (2 ^ 52)); [reflexivity|].
    change (2 ^ 53) with (2 * 2 ^ 52) in *. lia. }
  pose proof (rne_div_scaled offset alignment (2 ^ (52 - e))
                (proj1 Hx) (proj1 Ha) HP HdP) as Hm.
  cbn zeta in Hm. set (k := (offset + alignment - 1) / alignment) in *.
  assert (Hm' : (if 0 <=? e - 52
                 then rne_div offset (alignment * 2 ^ (e - 52))
                 else rne_div (offset * 2 ^ (- (e - 52))) alignment)
                = rne_div (offset * 2 ^ (52 - e)) alignment).
  { destruct (Z.leb_spec 0 (e - 52)).
    - assert (He52 : e = 52) by lia. rewrite He52.
      change (2 ^ (52 - 52)) with 1. rewrite !Z.mul_1_r. reflexivity.
    - replace (- (e - 52)) with (52 - e) by lia. reflexivity. }
  rewrite Hm'. set (m := rne_div (offset * 2 ^ (52 - e)) alignment) in *.
  assert (Hk : 0 < k <= offset).
  { subst k. split.
    - apply Z.div_str_pos. lia.
    - apply Z.div_le_upper_bound; nia. }
  assert (Hover : (0 <=? e - 52) && (2 ^ 1024 <=? m * 2 ^ (e - 52)) = false).
  { destruct (Z.leb_spec 0 (e - 52)); [|reflexivity].
    assert (He52 : e = 52) by lia. rewrite He52 in *.
    apply Z.leb_gt. change (2 ^ (52 - 52)) with 1 in *.
    assert (2 ^ 53 < 2 ^ 1024) by (apply Z.pow_lt_mono_r; lia). lia. }
  rewrite Hover. cbn [mbind result_bind]. f_equal. f_equal.
  unfold ceil. cbn [mant expo]. rewrite Z.mul_1_l.
  destruct (Z.leb_spec 0 (e - 52)).
  - assert (He52 : e = 52) by lia. rewrite He52 in *.
    change (2 ^ (52 - 52)) with 1 in *. lia.
  - replace (- (e - 52)) with (52 - e) by lia.
    apply ceil_scaled; assumption.
Qed.

(** For a positive offset below 2^53 and a positive alignment below
    2^1022 the quotient is exact enough: [roundup] returns a multiple of
    the alignment that is at least the offset and less than one alignment
    above it. *)
Corollary roundup_bounds_below_2_53 offset alignment :
  0 < offset < 2 ^ 53 -> 0 < alignment < 2 ^ 1022 ->
  exists r,
    roundup offset alignment = Ok r
    /\ offset <= r < offset + alignment
    /\ (alignment | r).
Proof.
  intros Hx Ha. eexists. split; [apply roundup_exact_below_2_53; assumption|].
  pose proof (Z.div_mod (offset + alignment - 1) alignment ltac:(lia)) as Hdm.
  pose proof (Z.mod_pos_bound (offset + alignment - 1) alignment ltac:(lia)) as Hr.
  split; [nia|]. apply Z.divide_factor_r.
Qed.

End roundup_facts.


(** C8, at offset 2^53 + 1 and alignment 1: the quotient is rounded to the
    binary64 number 2^53, and [roundup] returns 2^53, which is below the
    offset. *)
Theorem roundup_below_offset :
  util.roundup (2 ^ 53 + 1) 1 = Ok (2 ^ 53)
  /\ 2 ^ 53 < 2 ^ 53 + 1.
Proof. split; [vm_compute; reflexivity|lia]. Qed.

(** The same with an alignment of 16, and with an alignment so large that
    the quotient underflows to zero. *)
Lemma roundup_below_offset_aligned :
  util.roundup (2 ^ 60 + 1) 16 = Ok (2 ^ 60)
  /\ util.roundup 1 (2 ^ 1080) = Ok 0.
Proof. split; vm_compute; reflexivity. Qed.

(** Small offsets are rounded as expected. *)
Lemma roundup_small :
  util.roundup 10 4 = Ok 12 /\ util.roundup 12 4 = Ok 12
  /\ util.roundup 0x1234 0x200 = Ok 0x1400.
Proof. repeat split; vm_compute; reflexivity. Qed.

(** ** More on [readle] and [readbe] *)

Section bytes_facts.
Import util.

Lemma byte_range (x : byte) : 0 <= Z.of_N (Byte.to_N x) < 256.
Proof. pose proof (Byte.to_N_bounded x). lia. Qed.

Lemma readbe_from (b : bytes) : forall acc,
  fold_left (fun acc x => 256 * acc + Z.of_N (Byte.to_N x)) b acc
  = acc * 256 ^ Z.of_nat (length b) + readbe b.
Proof.
  unfold readbe. induction b as [|x b IH]; intros acc; cbn [fold_left length].
  - cbn. lia.
  - rewrite IH, (IH (256 * 0 + _)). rewrite Nat2Z.inj_succ, Z.pow_succ_r by lia. lia.
Qed.

Lemma readle_app (b1 b2 : bytes) :
  readle (b1 ++ b2) = readle b1 + 256 ^ Z.of_nat (length b1) * readle b2.
Proof.
  induction b1 as [|x b1 IH]; cbn [app readle length].
  - cbn. lia.
  - rewrite IH, Nat2Z.inj_succ, Z.pow_succ_r by lia. lia.
Qed.

Lemma readbe_app (b1 b2 : bytes) :
  readbe (b1 ++ b2) = readbe b1 * 256 ^ Z.of_nat (length b2) + readbe b2.
Proof. unfold readbe at 1. rewrite fold_left_app, readbe_from. reflexivity. Qed.

Lemma readle_rev (b : bytes) : readle b = readbe (rev b).
Proof.
  induction b as [|x b IH]; [reflexivity|].
  cbn [readle rev]. rewrite readbe_app, <- IH. cbn. lia.
Qed.

(** The little-endian reading of a byte string is the big-endian reading
    of the reversed string, and the other way round. *)
Theorem readle_readbe_rev (b : bytes) :
  readle b = readbe (rev b) /\ readbe b = readle (rev b).
Proof.
  split; [apply readle_rev|]. rewrite readle_rev, rev_involutive. reflexivity.
Qed.

(** A reading of [n] bytes is a natural number below [256 ^ n]. *)
Theorem readle_bound (b : bytes) :
  0 <= readle b < 256 ^ Z.of_nat (length b)
  /\ 0 <= readbe b < 256 ^ Z.of_nat (length b).
Proof.
  assert (H : forall b, 0 <= readle b < 256 ^ Z.of_nat (length b)).
  { clear b. induction b as [|x b IH]; cbn [readle length]; [cbn; lia|].
    pose proof (byte_range x). rewrite Nat2Z.inj_succ, Z.pow_succ_r by lia. lia. }
  split; [apply H|].
  assert (Hbe : readbe b = readle (rev b))
    by (rewrite readle_rev, rev_involutive; reflexivity).
  rewrite Hbe, <- (length_rev b). apply H.
Qed.

(** On byte strings of one length the little-endian reading is
    injective. *)
Theorem readle_inj (b1 : bytes) : forall b2 : bytes,
  length b1 = length b2 -> readle b1 = readle b2 -> b1 = b2.
Proof.
  induction b1 as [|x b1 IH]; intros [|y b2] Hlen Hval; try discriminate; [reflexivity|].
  cbn [readle] in Hval. pose proof (byte_range x). pose proof (byte_range y).
  assert (Hxy : Z.of_N (Byte.to_N x) = Z.of_N (Byte.to_N y)) by lia.
  assert (x = y).
  { apply N2Z.inj in Hxy.
    pose proof (Byte.of_to_N x) as Hx. pose proof (Byte.of_to_N y) as Hy.
    rewrite Hxy in Hx. congruence. }
  subst y. f_equal. apply IH; [cbn in Hlen; lia|lia].
Qed.

Lemma readle_inj_witness :
  length [Byte.x34; Byte.x12] = length (rev [Byte.x12; Byte.x34])
  /\ readle [Byte.x34; Byte.x12] = readle (rev [Byte.x12; Byte.x34])
  /\ [Byte.x34; Byte.x12] = rev [Byte.x12; Byte.x34].
Proof.
  split; [reflexivity|]. split; [reflexivity|].
  apply (readle_inj [Byte.x34; Byte.x12] (rev [Byte.x12; Byte.x34])); reflexivity.
Defined.

(** How the two readers split a concatenation: the bytes that come
    first are the low digits for [readle] and the high digits for
    [readbe]. *)
Theorem read_concatenation (b1 b2 : bytes) :
  readle (b1 ++ b2) = readle b1 + 256 ^ Z.of_nat (length b1) * readle b2
  /\ readbe (b1 ++ b2) = readbe b1 * 256 ^ Z.of_nat (length b2) + readbe b2.
Proof. split; [apply readle_app|apply readbe_app]. Qed.

End bytes_facts.

(** ** More on [roundup] *)

Section roundup_more.
Import util.

Lemma roundup_bounds_below_2_53_witness :
  0 < 0x1234 < 2 ^ 53 /\ 0 < 0x200 < 2 ^ 1022
  /\ exists r,
       roundup 0x1234 0x200 = Ok r
       /\ 0x1234 <= r < 0x1234 + 0x200
       /\ (0x200 | r).
Proof.
  split; [split; reflexivity|]. split; [split; reflexivity|].
  apply (roundup_bounds_below_2_53 0x1234 0x200); split; reflexivity.
Defined.

(** Below 2^53 a multiple of the alignment is left as it is, so
    rounding up a second time changes nothing. *)
Theorem roundup_idempotent_below_2_53 offset alignment r :
  0 < offset < 2 ^ 53 -> 0 < alignment < 2 ^ 1022 ->
  roundup offset alignment = Ok r -> r < 2 ^ 53 ->
  roundup r alignment = Ok r.
Proof.
  intros Hx Ha Hr Hsmall.
  rewrite roundup_exact_below_2_53 in Hr by assumption. injection Hr as <-.
  set (k := (offset + alignment - 1) / alignment) in *.
  assert (Hk : 0 < k) by (apply Z.div_str_pos; lia).
  rewrite roundup_exact_below_2_53 by nia. f_equal. f_equal.
  replace (k * alignment + alignment - 1) with (alignment - 1 + k * alignment) by lia.
  rewrite Z.div_add by lia. rewrite Z.div_small by lia. lia.
Qed.

Lemma roundup_idempotent_below_2_53_witness :
  roundup 0x1234 0x200 = Ok 0x1400 /\ roundup 0x1400 0x200 = Ok 0x1400.
Proof.
  split; [vm_compute; reflexivity|].
  apply (roundup_idempotent_below_2_53 0x1234 0x200 0x1400);
    [split; reflexivity|split; reflexivity|vm_compute; reflexivity|reflexivity].
Defined.

End roundup_more.

(** ** More on [decompose] *)

Section decompose_more.
Import util.

Lemma matched_zero (ms : list Member) : matched 0 ms = [].
Proof.
  induction ms as [|m ms IH]; [reflexivity|]. cbn [matched].
  replace (contained 0 m) with false; [exact IH|].
  unfold contained. rewrite Z.land_0_r.
  destruct (Z.eqb_spec (_value_ m) 0) as [->|Hne]; [reflexivity|].
  destruct (Z.eqb_spec 0 (_value_ m)); [congruence|reflexivity].
Qed.

(** Zero contains no member and has no bit to cover: whatever the class
    and the helper, [decompose] returns no residual and, as its only
    member, the member of value zero when the map has one. *)
Theorem decompose_zero hb flag :
  decompose hb flag 0
  = Some (Ok (match _value2member_map_ flag !! 0 with
              | Some m => [m]
              | None => []
              end, 0)).
Proof.
  rewrite decompose_unfold. unfold uncovered. rewrite matched_zero.
  cbn [negb Z.ltb Z.compare lor_values foldr Z.lnot Z.land Z.log2 Z.to_nat cover_bits Z.eqb].
  unfold finish. cbn [fst snd].
  destruct (_value2member_map_ flag !! 0); reflexivity.
Qed.

(** A negative input, or one whose bits are all in members it contains,
    never reaches the helper: the result is the same for every helper,
    and it is a result. *)
Theorem decompose_without_helper hb hb' flag value :
  value < 0 \/ uncovered flag value = 0 ->
  decompose hb flag value = decompose hb' flag value
  /\ exists members, decompose hb flag value = Some (Ok (members, uncovered flag value)).
Proof.
  intros Hcase. rewrite !(decompose_no_loop _ _ _ Hcase).
  split; [reflexivity|]. unfold finish. cbn [fst snd]. eauto.
Qed.

Lemma decompose_without_helper_witness :
  decompose _high_bit_unbound flag_RWX (-3) = decompose _high_bit_enum flag_RWX (-3)
  /\ exists members,
       decompose _high_bit_unbound flag_RWX (-3)
       = Some (Ok (members, uncovered flag_RWX (-3))).
Proof.
  apply (decompose_without_helper _high_bit_unbound _high_bit_enum flag_RWX (-3)).
  left. reflexivity.
Defined.

(** As [util.py] stands, with [_high_bit] unbound, [decompose] raises
    [NameError] exactly on the non-negative inputs that have a bit in no
    member they contain; on every other input it returns. *)
Theorem decompose_unbound_raises flag value :
  (decompose _high_bit_unbound flag value = Some (Raise (NameError "_high_bit"))
   <-> 0 <= value /\ uncovered flag value <> 0)
  /\ ((exists members, decompose _high_bit_unbound flag value
                       = Some (Ok (members, uncovered flag value)))
      <-> value < 0 \/ uncovered flag value = 0).
Proof.
  assert (Hok : value < 0 \/ uncovered flag value = 0 ->
                exists members, decompose _high_bit_unbound flag value
                                = Some (Ok (members, uncovered flag value))).
  { intros Hcase. rewrite (decompose_no_loop _ _ _ Hcase).
    unfold finish. cbn [fst snd]. eauto. }
  assert (Hraise : 0 <= value /\ uncovered flag value <> 0 ->
                   decompose _high_bit_unbound flag value
                   = Some (Raise (NameError "_high_bit"))).
  { intros [Hnn Hnz]. rewrite decompose_unfold.
    destruct (Z.ltb_spec value 0); [lia|]. cbn [negb cover_bits].
    destruct (Z.eqb_spec (uncovered flag value) 0); [contradiction|reflexivity]. }
  split; split; [|exact Hraise| |exact Hok].
  - intros Hr.
    destruct (Z.ltb_spec value 0) as [Hneg|Hnn];
      [|destruct (Z.eq_dec (uncovered flag value) 0) as [Hz|Hnz]; [|auto]].
    + destruct (Hok (or_introl Hneg)) as [ms Hms]. congruence.
    + destruct (Hok (or_intror Hz)) as [ms Hms]. congruence.
  - intros [ms Hms].
    destruct (Z.ltb_spec value 0) as [Hneg|Hnn]; [auto|].
    destruct (Z.eq_dec (uncovered flag value) 0) as [Hz|Hnz]; [auto|].
    rewrite (Hraise (conj Hnn Hnz)) in Hms. discriminate.
Qed.

(** *** The order of the result *)

(** Whenever [decompose] returns, the members come in descending order
    of value: each one is at least as large as all that follow it. *)
Theorem decompose_sorted hb flag value members not_covered :
  decompose hb flag value = Some (Ok (members, not_covered)) ->
  StronglySorted (fun a b => _value_ b <= _value_ a) members.
Proof.
  rewrite decompose_unfold.
  destruct (if negb _ then _ else _) as [[st|e]|]; try discriminate.
  unfold finish. cbn zeta. intros [= <- _].
  match goal with |- context [sort_desc ?l] => pose proof (sort_desc_sorted l) as Hs;
    destruct (sort_desc l) as [|m0 rest] end; [constructor|].
  destruct (_ && _); [|exact Hs]. inversion Hs; assumption.
Qed.

Lemma decompose_sorted_witness :
  decompose _high_bit_enum flag_RWX 23
    = Some (Ok ([ {| _name_ := "R"; _value_ := 4 |};
                  {| _name_ := "W"; _value_ := 2 |};
                  {| _name_ := "X"; _value_ := 1 |} ], 16))
  /\ StronglySorted (fun a b => _value_ b <= _value_ a)
       [ {| _name_ := "R"; _value_ := 4 |};
         {| _name_ := "W"; _value_ := 2 |};
         {| _name_ := "X"; _value_ := 1 |} ].
Proof.
  split; [vm_compute; reflexivity|].
  apply (decompose_sorted _high_bit_enum flag_RWX 23 _ 16). vm_compute. reflexivity.
Defined.

(** *** What every result has *)

Lemma submask_trans a b c : Z.land a b = a -> Z.land b c = b -> Z.land a c = a.
Proof.
  intros Hab Hbc. rewrite <- Hab, <- Z.land_assoc, Hbc. reflexivity.
Qed.

Lemma submask_disjoint a b m : Z.land a b = a -> Z.land b m = 0 -> Z.land a m = 0.
Proof.
  intros Hab Hbm. rewrite <- Hab, <- Z.land_assoc, Hbm. apply Z.land_0_r.
Qed.

Lemma uncovered_submask flag value :
  Z.land (uncovered flag value) value = uncovered flag value.
Proof.
  unfold uncovered. rewrite (Z.land_comm value), <- Z.land_assoc, Z.land_diag.
  reflexivity.
Qed.

Lemma uncovered_disjoint flag value m :
  m ∈ flag_members flag -> contained value m = true ->
  Z.land (uncovered flag value) (_value_ m) = 0.
Proof.
  intros Hin Hc. unfold uncovered.
  apply Z.bits_inj'. intros k Hk.
  rewrite !Z.land_spec, Z.lnot_spec, Z.bits_0 by exact Hk.
  destruct (Z.testbit (_value_ m) k) eqn:Hbit; [|apply andb_false_r].
  rewrite (lor_values_testbit _ m k); [|apply elem_of_matched; auto|exact Hbit].
  cbn. rewrite andb_false_r. reflexivity.
Qed.

(** Whatever the helper answers, the second loop only appends members
    and only takes bits from the residual. *)
Lemma cover_bits_grows hb flag (fuel : nat) : forall members nc tmp members' nc',
  cover_bits hb fuel flag members nc tmp = Some (Ok (members', nc')) ->
  (exists added, members' = members ++ added) /\ Z.land nc' nc = nc'.
Proof.
  assert (Hstop : forall (members : list Member) (nc : Z) members' nc',
            Some (Ok (members, nc)) = Some (Ok (members', nc')) ->
            (exists added, members' = members ++ added) /\ Z.land nc' nc = nc').
  { intros members nc members' nc' [= <- <-].
    split; [exists []; rewrite app_nil_r; reflexivity|apply Z.land_diag]. }
  induction fuel as [|fuel IH]; intros members nc tmp members' nc' Hrun;
    cbn [cover_bits] in Hrun; destruct (tmp =? 0); try (apply Hstop, Hrun);
    try discriminate.
  destruct (hb tmp) as [k|e]; [|discriminate].
  destruct (k <? 0); [discriminate|].
  destruct (Z.land tmp (Z.lnot (2 ^ k)) =? tmp); [discriminate|].
  apply IH in Hrun as [[added ->] Hsub].
  destruct (_value2member_map_ flag !! (2 ^ k)) as [m|]; cbn [fst snd] in *.
  - split; [exists ([m] ++ added); rewrite app_assoc; reflexivity|].
    apply (submask_trans _ _ _ Hsub).
    rewrite (Z.land_comm nc), <- Z.land_assoc, Z.land_diag. reflexivity.
  - split; [exists added; reflexivity|exact Hsub].
Qed.

(** Sorting keeps every member, and the only member that is dropped
    afterwards has the value of the input. *)
Lemma finish_keeps flag value st m :
  m ∈ st.1 -> _value_ m <> value -> m ∈ (finish flag value st).1.
Proof.
  intros Hin Hne. unfold finish. cbn zeta. cbn [fst].
  set (ms := match st.1, _value2member_map_ flag !! value with
             | [], Some m' => st.1 ++ [m']
             | _, _ => st.1
             end).
  assert (Hms : m ∈ sort_desc ms).
  { apply elem_of_sort_desc. subst ms. destruct st.1 as [|a l].
    - apply elem_of_nil in Hin. contradiction.
    - destruct (_value2member_map_ flag !! value); exact Hin. }
  destruct (sort_desc ms) as [|h rest]; [exact Hms|].
  destruct ((1 <? length (h :: rest))%nat && (_value_ h =? value)) eqn:Hpop; [|exact Hms].
  apply andb_true_iff in Hpop as [_ Hv]. apply Z.eqb_eq in Hv.
  apply elem_of_cons in Hms as [->|Hr]; [contradiction|exact Hr].
Qed.

(** Whatever the class and the helper, a result of [decompose] has a
    residual that is made of bits of the input and shares no bit with a
    member the input contains, and a list that holds every member the
    input contains, but for the members of the input's own value. *)
Theorem decompose_keeps_contained_members hb flag value members not_covered :
  decompose hb flag value = Some (Ok (members, not_covered)) ->
  Z.land not_covered value = not_covered
  /\ (forall m, m ∈ flag_members flag -> contained value m = true ->
        Z.land not_covered (_value_ m) = 0)
  /\ (forall m, m ∈ flag_members flag -> contained value m = true ->
        _value_ m <> value -> m ∈ members).
Proof.
  rewrite decompose_unfold. intros Hrun.
  assert (Hst : exists st,
            Some (Ok (finish flag value st)) = Some (Ok (members, not_covered))
            /\ (exists added, st.1 = matched value (flag_members flag) ++ added)
            /\ Z.land st.2 (uncovered flag value) = st.2).
  { destruct (negb (value <? 0)).
    - destruct (cover_bits _ _ _ _ _ _) as [[[ms nc]|e]|] eqn:Hloop; try discriminate.
      exists (ms, nc). split; [exact Hrun|]. apply cover_bits_grows in Hloop. exact Hloop.
    - eexists. split; [exact Hrun|]. cbn [fst snd].
      split; [exists []; rewrite app_nil_r; reflexivity|apply Z.land_diag]. }
  destruct Hst as (st & Hfin & [added Hadd] & Hsub).
  assert (Hinj : forall p q : list Member * Z, Some (Ok p) = Some (Ok q) -> p = q)
    by (intros p q [= ->]; reflexivity).
  apply Hinj in Hfin. clear Hinj.
  assert (Hnc : not_covered = st.2).
  { change st.2 with (finish flag value st).2. rewrite Hfin. reflexivity. }
  assert (Hmem : members = (finish flag value st).1) by (rewrite Hfin; reflexivity).
  rewrite Hnc. split; [|split].
  - apply (submask_trans _ _ _ Hsub), uncovered_submask.
  - intros m Hin Hc. apply (submask_disjoint _ _ _ Hsub), uncovered_disjoint; assumption.
  - intros m Hin Hc Hne. rewrite Hmem. apply finish_keeps; [|exact Hne].
    rewrite Hadd. apply elem_of_app. left. apply elem_of_matched. auto.
Qed.

Lemma decompose_keeps_contained_members_witness :
  decompose _high_bit_unbound flag_RWX (-3)
    = Some (Ok ([ {| _name_ := "R"; _value_ := 4 |};
                  {| _name_ := "X"; _value_ := 1 |} ], -8))
  /\ Z.land (-8) (-3) = -8.
Proof.
  assert (Hrun : decompose _high_bit_unbound flag_RWX (-3)
                 = Some (Ok ([ {| _name_ := "R"; _value_ := 4 |};
                               {| _name_ := "X"; _value_ := 1 |} ], -8)))
    by (vm_compute; reflexivity).
  split; [exact Hrun|].
  apply (proj1 (decompose_keeps_contained_members _ _ _ _ _ Hrun)).
Defined.

(** *** An input that is the value of a member *)

Lemma submask_le x v : 0 <= v -> Z.land x v = x -> x <= v.
Proof.
  intros Hv Hx.
  assert (Hd : Z.ldiff x v = 0).
  { apply Z.bits_inj'. intros k Hk. rewrite Z.ldiff_spec, Z.bits_0.
    apply (f_equal (fun z => Z.testbit z k)) in Hx. rewrite Z.land_spec in Hx.
    destruct (Z.testbit x k), (Z.testbit v k); cbn in *; congruence. }
  apply Z.sub_nocarry_ldiff in Hd.
  assert (0 <= Z.ldiff v x) by (apply Z.ldiff_nonneg; auto). lia.
Qed.

(** A positive input that is the value of a member the iteration yields
    never reaches the helper and has no residual.  A member of that value
    comes first among the sorted members the input contains.  It is
    returned alone when nothing follows it, and dropped when other
    members follow: these are then the result. *)
Theorem decompose_named_value hb flag value m0 :
  m0 ∈ flag_members flag -> _value_ m0 = value -> 0 < value ->
  exists top rest,
    sort_desc (matched value (flag_members flag)) = top :: rest
    /\ _value_ top = value
    /\ decompose hb flag value
       = Some (Ok (match rest with [] => [top] | _ :: _ => rest end, 0)).
Proof.
  intros Hin0 Hv0 Hpos.
  assert (Hm0 : m0 ∈ matched value (flag_members flag)).
  { apply elem_of_matched. split; [exact Hin0|]. apply contained_spec.
    rewrite Hv0. split; [lia|apply Z.land_diag]. }
  assert (Hnc : uncovered flag value = 0).
  { unfold uncovered. apply Z.bits_inj'. intros k Hk.
    rewrite Z.land_spec, Z.lnot_spec, Z.bits_0 by exact Hk.
    destruct (Z.testbit value k) eqn:Hbit; [|reflexivity].
    rewrite (lor_values_testbit _ m0 k Hm0); [reflexivity|].
    rewrite Hv0. exact Hbit. }
  rewrite (decompose_no_loop hb flag value (or_intror Hnc)), Hnc.
  unfold finish. cbn [fst snd].
  assert (Hmatch : forall A (x y : A),
            match matched value (flag_members flag) with [] => x | _ :: _ => y end = y).
  { intros A x y. destruct (matched value (flag_members flag));
      [apply elem_of_nil in Hm0; contradiction|reflexivity]. }
  rewrite Hmatch. clear Hmatch.
  remember (matched value (flag_members flag)) as ms eqn:Hms.
  pose proof (sort_desc_sorted ms) as Hsorted.
  assert (Hm0s : m0 ∈ sort_desc ms) by (apply elem_of_sort_desc, Hm0).
  destruct (sort_desc ms) as [|h rest] eqn:Hs; [apply elem_of_nil in Hm0s; contradiction|].
  assert (Hh : _value_ h = value).
  { assert (Hhin : h ∈ sort_desc ms) by (rewrite Hs; apply elem_of_cons; auto).
    apply (proj1 (elem_of_sort_desc _ _)) in Hhin. rewrite Hms in Hhin.
    apply elem_of_matched in Hhin as [_ Hc]. apply contained_spec in Hc as [_ Hsub].
    assert (_value_ h <= value) by (apply submask_le; [lia|exact Hsub]).
    assert (value <= _value_ h); [|lia].
    apply elem_of_cons in Hm0s as [->|Hr]; [lia|].
    apply StronglySorted_inv in Hsorted as [_ Hall].
    rewrite Forall_forall in Hall. specialize (Hall m0 Hr).
    unfold by_value_desc in Hall. lia. }
  exists h, rest. split; [reflexivity|]. split; [exact Hh|].
  rewrite Hh, Z.eqb_refl, andb_true_r.
  destruct rest as [|r rest']; reflexivity.
Qed.

Lemma decompose_named_value_witness :
  decompose _high_bit_unbound flag_RWX 4
  = Some (Ok ([ {| _name_ := "R"; _value_ := 4 |} ], 0)).
Proof.
  destruct (decompose_named_value _high_bit_unbound flag_RWX 4
              {| _name_ := "R"; _value_ := 4 |})
    as (top & rest & Hs & _ & Hrun).
  - apply elem_of_cons. left. reflexivity.
  - reflexivity.
  - reflexivity.
  - vm_compute in Hs. injection Hs as <- <-. exact Hrun.
Defined.

End decompose_more.

(** ** More on path normalisation *)

Section path_more.
Import srl.

Lemma normalize_double_slash_not_idempotent_witness :
  startswith (lit "//icon.bin") (lit "//") = true
  /\ _normalize_path (_normalize_path (lit "//icon.bin"))
     <> _normalize_path (lit "//icon.bin").
Proof.
  split; [reflexivity|].
  apply (normalize_double_slash_not_idempotent (lit "//icon.bin")). reflexivity.
Defined.

Lemma normalize_four_letter_name_witness :
  _normalize_path (lit "/icon.bin") = _normalize_path (lit "icon").
Proof.
  apply (normalize_four_letter_name (lit "icon")); reflexivity.
Defined.

(** Normalisation never lengthens a path, and what it returns ends in
    [.bin], in whatever case, only when it is those four code points and
    nothing else. *)
Theorem normalize_shape (p : str) :
  (length (_normalize_path p) <= length p)%nat
  /\ (endswith (lower (_normalize_path p)) (lit ".bin") = true ->
      length (_normalize_path p) = 4%nat).
Proof.
  unfold _normalize_path.
  set (q := if startswith p (lit "/") then drop 1 p else p).
  assert (Hq : (length q <= length p)%nat).
  { subst q. destruct (startswith p (lit "/")); [rewrite length_drop|]; lia. }
  destruct (endswith (lower q) (lit ".bin")) eqn:He.
  - rewrite length_take. split; [lia|]. intros _.
    unfold endswith in He. apply andb_true_iff in He as [Hlen _].
    apply Nat.leb_le in Hlen. unfold lower in Hlen. rewrite length_map in Hlen.
    change (length (lit ".bin")) with 4%nat in Hlen. lia.
  - split; [exact Hq|]. rewrite He. discriminate.
Qed.

End path_more.

(** ** More on titles *)

Section icon_more.
Import srl.

(** The mapping that [__init__] builds has the twelve region names as its
    keys and no other, whatever the argument holds: a title of the
    argument under another key is dropped, and a region without a title
    gets [None]. *)
Theorem init_names_keys names rl si pi (l : str) :
  (is_Some (SRLIcon.names (SRLIcon.init names rl si pi) !! l) <-> l ∈ region_names)
  /\ (l ∈ region_names ->
      SRLIcon.names (SRLIcon.init names rl si pi) !! l = Some (names !! l)).
Proof.
  rewrite init_names_lookup. destruct (decide (l ∈ region_names)) as [Hl|Hl].
  - split; [split; eauto|reflexivity].
  - split; [split; [intros [x [=]]|contradiction]|contradiction].
Qed.

(** A loaded icon has a title, blank or not, for each of the first eight
    region names and [None] for the last four. *)
Theorem loaded_icon_regions srlicon icon :
  SRLIcon.load_block srlicon = Ok icon ->
  Forall (fun l => exists title, SRLIcon.names icon !! l = Some (Some title))
         (take 8 region_names)
  /\ Forall (fun l => SRLIcon.names icon !! l = Some None) (drop 8 region_names).
Proof.
  intros Hload. split; apply Forall_forall; intros l Hl;
    apply (load_block_names srlicon icon l Hload), Hl.
Qed.

Lemma loaded_icon_regions_witness :
  exists icon,
    SRLIcon.load_block (zeros 0x2400) = Ok icon
    /\ Forall (fun l => SRLIcon.names icon !! l = Some None) (drop 8 region_names).
Proof.
  destruct (SRLIcon.load_block (zeros 0x2400)) as [icon|e] eqn:Hload;
    [|vm_compute in Hload; discriminate].
  exists icon. split; [reflexivity|].
  apply (loaded_icon_regions (zeros 0x2400) icon Hload).
Defined.

Lemma get_app_title_default_order_witness :
  exists icon title,
    SRLIcon.load_block (zeros 0x2400) = Ok icon
    /\ SRLIcon.get_app_title icon (SRLIcon.Names _region_order_check) = Ok title.
Proof.
  destruct (SRLIcon.load_block (zeros 0x2400)) as [icon|e] eqn:Hload;
    [|vm_compute in Hload; discriminate].
  destruct (get_app_title_default_order (zeros 0x2400) icon Hload) as (title & _ & Ht).
  exists icon, title. auto.
Defined.

(** A preferred language that is not a region name makes [get_app_title]
    raise [KeyError], provided the loop gets to it: the languages before
    it are regions without a title.  A language after a region that has
    a title is never looked up. *)
Theorem get_app_title_unknown_language names rl si pi (before after : list str) (l : str) :
  Forall (fun x => x ∈ region_names /\ names !! x = None) before ->
  l ∉ region_names ->
  SRLIcon.get_app_title (SRLIcon.init names rl si pi)
    (SRLIcon.Names (before ++ l :: after))
  = Raise (KeyError l).
Proof.
  intros Hbefore Hl. unfold SRLIcon.get_app_title. cbn [SRLIcon.language_tuple].
  induction Hbefore as [|x before [Hx Hnone] _ IH]; cbn [app SRLIcon.first_title].
  - rewrite init_names_lookup, decide_False by exact Hl. reflexivity.
  - rewrite init_names_lookup, decide_True by exact Hx. rewrite Hnone. exact IH.
Qed.

Lemma get_app_title_unknown_language_witness :
  SRLIcon.get_app_title (SRLIcon.init ∅ (lit "") None None)
    (SRLIcon.Names ([lit "Dutch"] ++ lit "Klingon" :: [lit "English"]))
  = Raise (KeyError (lit "Klingon")).
Proof.
  apply (get_app_title_unknown_language ∅ (lit "") None None
           [lit "Dutch"] [lit "English"] (lit "Klingon")).
  - repeat constructor.
  - intros Hin. apply list_elem_of_In in Hin. vm_compute in Hin.
    repeat (destruct Hin as [Hin|Hin]; [discriminate|]). exact Hin.
Defined.

(** *** One title record *)

Lemma lstrip_none (chars s : str) : Forall (fun c => c ∉ chars) s -> lstrip chars s = s.
Proof.
  destruct 1 as [|c s Hc _]; [reflexivity|]. cbn [lstrip].
  rewrite bool_decide_eq_false_2 by exact Hc. reflexivity.
Qed.

Lemma lstrip_repeat (c : N) (k : nat) (s : str) :
  lstrip [c] (repeat c k ++ s) = lstrip [c] s.
Proof.
  induction k as [|k IH]; [reflexivity|]. cbn [repeat app lstrip].
  rewrite bool_decide_eq_true_2 by (apply list_elem_of_singleton; reflexivity).
  exact IH.
Qed.

Lemma rev_repeat (c : N) (k : nat) : rev (repeat c k) = repeat c k.
Proof.
  induction k as [|k IH]; [reflexivity|]. cbn [repeat rev]. rewrite IH.
  clear IH. induction k as [|k IH]; [reflexivity|]. cbn [repeat app]. rewrite IH.
  reflexivity.
Qed.

(** Stripping the padding of a text that holds no NUL. *)
Lemma strip_padding (s : str) (k : nat) :
  Forall (fun c => c <> 0%N) s -> strip [0%N] (s ++ repeat 0%N k) = s.
Proof.
  intros Hs. unfold strip.
  assert (Hnot : forall t : str, Forall (fun c => c <> 0%N) t ->
                                 Forall (fun c => c ∉ [0%N]) t).
  { intros t Ht. eapply Forall_impl; [exact Ht|]. intros c Hc Hin.
    apply list_elem_of_singleton in Hin. contradiction. }
  assert (H1 : lstrip [0%N] (s ++ repeat 0%N k) = if s is [] then [] else s ++ repeat 0%N k).
  { destruct s as [|c s].
    - cbn [app]. rewrite <- (app_nil_r (repeat 0%N k)), lstrip_repeat. reflexivity.
    - cbn [app lstrip]. inversion Hs as [|? ? Hc _]; subst.
      rewrite bool_decide_eq_false_2; [reflexivity|].
      intros Hin. apply list_elem_of_singleton in Hin. contradiction. }
  rewrite H1. destruct s as [|c s]; [reflexivity|].
  rewrite rev_app_distr, rev_repeat, lstrip_repeat, lstrip_none, rev_involutive;
    [reflexivity|].
  apply Hnot, Forall_forall. intros x Hx.
  rewrite Forall_forall in Hs. apply Hs.
  apply list_elem_of_In. apply list_elem_of_In, in_rev in Hx. exact Hx.
Qed.

Lemma splitlines_from_line (l : str) : forall line rest,
  Forall (fun c => is_linebreak c = false) l ->
  splitlines_from line (l ++ rest) = splitlines_from (rev l ++ line) rest.
Proof.
  induction l as [|c l IH]; intros line rest Hl; [reflexivity|].
  inversion Hl as [|? ? Hc Hl']; subst. cbn [app splitlines_from]. rewrite Hc.
  rewrite IH by exact Hl'. cbn [rev]. rewrite <- app_assoc. reflexivity.
Qed.

Lemma splitlines_from_lf (line rest : str) :
  splitlines_from line (10%N :: rest) = rev line :: splitlines_from [] rest.
Proof. cbn [splitlines_from]. destruct rest; reflexivity. Qed.

(** Lines joined by line feeds split back into the same lines, when no
    line holds a line boundary and the last one is not empty. *)
Lemma splitlines_join (lines : list str) :
  Forall (Forall (fun c => is_linebreak c = false)) lines ->
  last lines <> Some [] ->
  splitlines (join [10%N] lines) = lines.
Proof.
  unfold splitlines. induction 1 as [|x r Hx Hr IH]; intros Hlast; [reflexivity|].
  destruct r as [|y r'].
  - cbn [join]. pose proof (splitlines_from_line x [] [] Hx) as E.
    rewrite !app_nil_r in E. rewrite E. cbn [splitlines_from].
    destruct x as [|c x]; [contradiction Hlast; reflexivity|].
    destruct (rev (c :: x)) eqn:Hrev.
    + apply (f_equal (@length N)) in Hrev. rewrite length_rev in Hrev. discriminate.
    + rewrite <- Hrev, rev_involutive. reflexivity.
  - change (join [10%N] (x :: y :: r')) with (x ++ [10%N] ++ join [10%N] (y :: r')).
    rewrite splitlines_from_line by exact Hx. cbn [app].
    rewrite splitlines_from_lf, app_nil_r, rev_involutive. f_equal.
    apply IH. exact Hlast.
Qed.

Lemma join_no_nul (lines : list str) :
  Forall (Forall (fun c => c <> 0%N)) lines -> Forall (fun c => c <> 0%N) (join [10%N] lines).
Proof.
  induction 1 as [|x r Hx Hr IH]; [constructor|].
  destruct r as [|y r']; [exact Hx|].
  change (join [10%N] (x :: y :: r')) with (x ++ [10%N] ++ join [10%N] (y :: r')).
  apply Forall_app. split; [exact Hx|]. apply Forall_app. split; [|exact IH].
  repeat constructor. discriminate.
Qed.

(** A record whose text, after decoding, is some lines joined by line
    feeds and padded with NULs gives the title that the number of lines
    selects: three lines give (l0, l0 + " " + l1, l2), two give
    (l0, l0, l1), and any other number gives three empty strings. *)
Theorem record_title_lines (app_title : bytes) (lines : list str) (k : nat) :
  decode_utf16le (slice app_title 0 0x100) = Ok (join [10%N] lines ++ repeat 0%N k) ->
  Forall (Forall (fun c => is_linebreak c = false)) lines ->
  Forall (Forall (fun c => c <> 0%N)) lines ->
  last lines <> Some [] ->
  SRLIcon.record_title app_title
  = Ok match lines with
       | [l0; l1; l2] =>
           {| AppTitle.short_desc := l0;
              AppTitle.long_desc := l0 ++ lit " " ++ l1;
              AppTitle.publisher := l2 |}
       | [l0; l1] =>
           {| AppTitle.short_desc := l0;
              AppTitle.long_desc := l0;
              AppTitle.publisher := l1 |}
       | _ =>
           {| AppTitle.short_desc := [];
              AppTitle.long_desc := [];
              AppTitle.publisher := [] |}
       end.
Proof.
  intros Hdecode Hbreak Hnul Hlast. unfold SRLIcon.record_title.
  rewrite Hdecode. cbn [mbind result_bind].
  rewrite strip_padding by (apply join_no_nul, Hnul).
  rewrite splitlines_join by assumption. reflexivity.
Qed.

(** The record "A", "B", "C": ten bytes of text and 246 of padding. *)
Lemma record_title_lines_witness :
  SRLIcon.record_title
    ([Byte.x41; Byte.x00; Byte.x0a; Byte.x00; Byte.x42; Byte.x00;
      Byte.x0a; Byte.x00; Byte.x43; Byte.x00] ++ zeros 246)
  = Ok {| AppTitle.short_desc := lit "A";
          AppTitle.long_desc := lit "A B";
          AppTitle.publisher := lit "C" |}.
Proof.
  apply (record_title_lines _ [lit "A"; lit "B"; lit "C"] 123).
  - vm_compute. reflexivity.
  - repeat constructor.
  - repeat constructor; discriminate.
  - discriminate.
Defined.

End icon_more.

(** ** More on [load] *)

Section icon_load.
Import srl.

Lemma slice_slice {A} (l : list A) (lo hi x n : nat) :
  (x + n <= hi - lo)%nat ->
  slice (slice l lo hi) x (x + n) = slice l (lo + x) (lo + x + n).
Proof.
  intros Hx. unfold slice.
  replace (x + n - x)%nat with n by lia. replace (lo + x + n - (lo + x))%nat with n by lia.
  rewrite skipn_firstn_comm, take_take, drop_drop. f_equal. lia.
Qed.

Lemma record_title_slice (r : bytes) :
  (length r <= 0x100)%nat -> slice r 0 0x100 = r.
Proof. intros Hr. unfold slice. rewrite drop_0. apply take_ge. lia. Qed.

(** The records that [load] cuts out of the block, by their place in the
    block: record [i] is the 0x100 bytes at 0x240 + 0x100 * i. *)
Lemma load_pairs (srlicon : bytes) :
  zip (map (fun x => slice (slice srlicon 0x240 0x0A40) x (x + 0x100))
           (range 0 0x800 0x100))
      region_names
  = zip (map (fun i => slice srlicon (0x240 + 0x100 * i) (0x340 + 0x100 * i))
             (seq 0 8))
        (take 8 region_names).
Proof.
  assert (Hr : range 0 0x800 0x100 = map (fun i => 0x100 * i)%nat (seq 0 8))
    by (vm_compute; reflexivity).
  rewrite Hr, map_map.
  assert (Hmap : map (fun i => slice (slice srlicon 0x240 0x0A40) (0x100 * i) (0x100 * i + 0x100))
                     (seq 0 8)
                 = map (fun i => slice srlicon (0x240 + 0x100 * i) (0x340 + 0x100 * i))
                       (seq 0 8)).
  { apply map_ext_in. intros i Hi%in_seq.
    rewrite slice_slice by lia. f_equal; lia. }
  rewrite Hmap. reflexivity.
Qed.

Lemma load_titles_values pairs : forall names0 names,
  NoDup pairs.*2 ->
  SRLIcon.load_titles pairs names0 = Ok names ->
  Forall (fun p => exists title,
            SRLIcon.record_title p.1 = Ok title /\ names !! p.2 = Some title) pairs.
Proof.
  induction pairs as [|[app_title region] rest IH]; intros names0 names Hnd; [constructor|].
  cbn [fmap list_fmap snd] in Hnd. apply NoDup_cons in Hnd as [Hfresh Hnd].
  cbn [SRLIcon.load_titles]. intros (title & Ht & Hrest)%bind_ok_inv.
  constructor; [|exact (IH _ _ Hnd Hrest)].
  exists title. split; [exact Ht|]. cbn [snd].
  rewrite (proj2 (load_titles_lookup _ _ _ region Hrest) Hfresh).
  apply lookup_insert_eq.
Qed.

Lemma load_block_title_at (srlicon : bytes) icon (i : nat) (region : str) :
  SRLIcon.load_block srlicon = Ok icon ->
  (i < 8)%nat ->
  region_names !! i = Some region ->
  exists title,
    SRLIcon.record_title (slice srlicon (0x240 + 0x100 * i) (0x340 + 0x100 * i))
    = Ok title
    /\ SRLIcon.names icon !! region = Some (Some title).
Proof.
  unfold SRLIcon.load_block. rewrite load_pairs.
  intros (names & Hnames & [= <-])%bind_ok_inv Hi Hregion.
  apply load_titles_values in Hnames.
  2:{ rewrite snd_zip by (rewrite length_map, length_seq, length_take; cbn; lia).
      pose proof region_names_NoDup as Hnd.
      rewrite <- (take_drop 8 region_names) in Hnd.
      apply NoDup_app in Hnd as (Hnd & _). exact Hnd. }
  rewrite Forall_forall in Hnames.
  destruct (Hnames (slice srlicon (0x240 + 0x100 * i) (0x340 + 0x100 * i), region))
    as (title & Ht & Hl).
  { apply list_elem_of_lookup. exists i.
    apply lookup_zip_with_Some. eexists _, _. split; [reflexivity|]. split.
    - rewrite list_lookup_fmap, lookup_seq_lt by exact Hi. reflexivity.
    - rewrite lookup_take_lt by exact Hi. exact Hregion. }
  exists title. split; [exact Ht|]. cbn [snd] in Hl.
  rewrite init_names_lookup, decide_True, Hl; [reflexivity|].
  apply list_elem_of_lookup. eauto.
Qed.

(** Each of the first eight regions gets the title of its own record:
    region [i] that of the 0x100 bytes at 0x240 + 0x100 * i. *)
Theorem loaded_icon_title (srlicon : bytes) icon (i : nat) (region : str) :
  SRLIcon.load_block srlicon = Ok icon ->
  (i < 8)%nat ->
  region_names !! i = Some region ->
  exists title,
    SRLIcon.record_title (slice srlicon (0x240 + 0x100 * i) (0x340 + 0x100 * i))
    = Ok title
    /\ SRLIcon.names icon !! region = Some (Some title).
Proof. apply load_block_title_at. Qed.

Lemma loaded_icon_title_witness :
  exists icon title,
    SRLIcon.load_block (zeros 0x2400) = Ok icon
    /\ SRLIcon.names icon !! lit "English" = Some (Some title).
Proof.
  destruct (SRLIcon.load_block (zeros 0x2400)) as [icon|e] eqn:Hload;
    [|vm_compute in Hload; discriminate].
  destruct (loaded_icon_title (zeros 0x2400) icon 1 (lit "English") Hload)
    as (title & _ & Ht); [lia|reflexivity|].
  exists icon, title. auto.
Defined.

Lemma load_titles_ok pairs : forall names0,
  (exists names, SRLIcon.load_titles pairs names0 = Ok names)
  <-> Forall (fun p => exists title, SRLIcon.record_title p.1 = Ok title) pairs.
Proof.
  induction pairs as [|[app_title region] rest IH]; intros names0.
  - split; [constructor|eauto].
  - cbn [SRLIcon.load_titles]. rewrite Forall_cons. cbn [fst]. split.
    + intros [names (title & Ht & Hrest)%bind_ok_inv].
      split; [eauto|]. apply (IH (<[region:=title]> names0)). eauto.
    + intros [[title Ht] Hrest]. rewrite Ht. cbn [mbind result_bind].
      apply IH, Hrest.
Qed.

Lemma record_title_ok (app_title : bytes) :
  (exists title, SRLIcon.record_title app_title = Ok title)
  <-> exists s, decode_utf16le (slice app_title 0 0x100) = Ok s.
Proof.
  unfold SRLIcon.record_title. destruct (decode_utf16le _) as [s|e]; cbn [mbind result_bind].
  - split; eauto.
  - split; intros [x [=]].
Qed.

Lemma load_block_ok (srlicon : bytes) :
  (exists icon, SRLIcon.load_block srlicon = Ok icon)
  <-> Forall (fun i => exists s,
                decode_utf16le (slice srlicon (0x240 + 0x100 * i) (0x340 + 0x100 * i))
                = Ok s)
             (seq 0 8).
Proof.
  transitivity (exists names,
    SRLIcon.load_titles
      (zip (map (fun i => slice srlicon (0x240 + 0x100 * i) (0x340 + 0x100 * i)) (seq 0 8))
           (take 8 region_names)) ∅ = Ok names).
  - unfold SRLIcon.load_block. rewrite load_pairs. split.
    + intros [icon (names & Hnames & _)%bind_ok_inv]. eauto.
    + intros [names Hnames]. rewrite Hnames. cbn [mbind result_bind]. eauto.
  - rewrite load_titles_ok.
    rewrite <- (Forall_fmap fst (fun r => exists title, SRLIcon.record_title r = Ok title)).
    rewrite fst_zip by (rewrite length_map, length_seq, length_take; cbn; lia).
    rewrite Forall_fmap. apply Forall_iff. intros i. cbn beta. unfold compose.
    rewrite record_title_ok, record_title_slice; [reflexivity|].
    unfold slice. rewrite length_take. lia.
Qed.

(** [load] succeeds exactly when each of the eight records at 0x240,
    0x340, ..., 0x940 is well-formed UTF-16; nothing else in the block can
    make it fail, and when it fails the exception is
    [UnicodeDecodeError]. *)
Theorem load_block_outcome (srlicon : bytes) :
  ((exists icon, SRLIcon.load_block srlicon = Ok icon)
   <-> Forall (fun i => exists s,
                 decode_utf16le (slice srlicon (0x240 + 0x100 * i) (0x340 + 0x100 * i))
                 = Ok s)
              (seq 0 8))
  /\ (forall e, SRLIcon.load_block srlicon = Raise e ->
                exists position, e = UnicodeDecodeError position).
Proof. split; [apply load_block_ok|intros e; apply load_block_raises]. Qed.

Lemma slice_beyond {A} (l : list A) (lo hi : nat) :
  (length l <= lo)%nat -> slice l lo hi = [].
Proof. intros Hl. unfold slice. rewrite drop_ge by exact Hl. apply take_nil. Qed.

(** A block that ends before the title table, the empty block included,
    still loads: the eight records are read as empty and each of the
    first eight regions gets the title of three empty strings. *)
Theorem load_block_short (srlicon : bytes) :
  (length srlicon <= 0x240)%nat ->
  exists icon,
    SRLIcon.load_block srlicon = Ok icon
    /\ Forall (fun l => SRLIcon.names icon !! l
                        = Some (Some {| AppTitle.short_desc := [];
                                        AppTitle.long_desc := [];
                                        AppTitle.publisher := [] |}))
              (take 8 region_names).
Proof.
  intros Hshort.
  assert (Hrec : forall i, slice srlicon (0x240 + 0x100 * i) (0x340 + 0x100 * i) = [])
    by (intros i; apply slice_beyond; lia).
  destruct (proj2 (load_block_ok srlicon)) as [icon Hload].
  { apply Forall_forall. intros i _. rewrite Hrec. exists []. reflexivity. }
  exists icon. split; [exact Hload|].
  apply Forall_forall. intros l [i Hi]%list_elem_of_lookup.
  pose proof (lookup_lt_Some _ _ _ Hi) as Hlt. rewrite length_take in Hlt.
  assert (Hi8 : (i < 8)%nat) by lia.
  rewrite lookup_take_lt in Hi by exact Hi8.
  destruct (load_block_title_at srlicon icon i l Hload Hi8 Hi) as (title & Ht & Hl).
  rewrite Hrec in Ht. vm_compute in Ht. injection Ht as <-. exact Hl.
Qed.

Lemma load_block_short_witness :
  exists icon,
    SRLIcon.load_block [] = Ok icon
    /\ SRLIcon.names icon !! lit "Japanese"
       = Some (Some {| AppTitle.short_desc := [];
                       AppTitle.long_desc := [];
                       AppTitle.publisher := [] |}).
Proof.
  destruct (load_block_short []) as (icon & Hload & Hnames); [cbn; lia|].
  exists icon. split; [exact Hload|].
  rewrite Forall_forall in Hnames. apply Hnames.
  apply list_elem_of_lookup. exists 0%nat. reflexivity.
Defined.

(** [__repr__] of an icon that [__init__] built never raises: it shows the
    short description of the title that the default order selects. *)
Theorem repr_constructed names rl si pi :
  exists title,
    SRLIcon.get_app_title (SRLIcon.init names rl si pi)
      (SRLIcon.Names _region_order_check) = Ok title
    /\ SRLIcon.repr (SRLIcon.init names rl si pi)
       = Ok (lit "<SRLIcon title: " ++ AppTitle.short_desc title ++ lit ">").
Proof.
  unfold SRLIcon.repr.
  assert (Hget : exists title,
    SRLIcon.get_app_title (SRLIcon.init names rl si pi)
      (SRLIcon.Names _region_order_check) = Ok title).
  { unfold SRLIcon.get_app_title. rewrite first_title_present; [eauto|].
    apply Forall_forall. intros l Hl. rewrite init_names_lookup, decide_True; [eauto|].
    revert l Hl. apply Forall_forall.
    apply (bool_decide_unpack _). vm_compute. exact I. }
  destruct Hget as [title Ht]. exists title. rewrite Ht. split; reflexivity.
Qed.

End icon_load.

(** ** More on the reader *)

Section reader_more.
Import srl.

Lemma readle_lt (b : bytes) (n : nat) :
  (length b <= n)%nat -> 0 <= util.readle b < 256 ^ Z.of_nat n.
Proof.
  revert n. induction b as [|x b IH]; intros n Hn; cbn [util.readle].
  - split; [lia|]. apply Z.pow_pos_nonneg; lia.
  - destruct n as [|n]; [cbn in Hn; lia|].
    cbn [length] in Hn. specialize (IH n ltac:(lia)).
    pose proof (Byte.to_N_bounded x).
    rewrite Nat2Z.inj_succ, Z.pow_succ_r by lia. lia.
Qed.

Lemma read_contents fp n : BinaryIO.contents (BinaryIO.read fp n).2 = BinaryIO.contents fp.
Proof. reflexivity. Qed.

Lemma _load_icon_fields self r :
  SRLReader._load_icon self = Ok r ->
  SRLReader.apptitle r = SRLReader.apptitle self
  /\ SRLReader._icon_offset r = SRLReader._icon_offset self
  /\ SRLReader.entries r = SRLReader.entries self
  /\ SRLReader.shortDesc r = SRLReader.shortDesc self
  /\ SRLReader.longDesc r = SRLReader.longDesc self.
Proof.
  unfold SRLReader._load_icon.
  destruct (SRLReader.icon_attempt self) as [[i|e] file].
  - intros [= <-]. repeat split.
  - destruct (isinstance_Exception e); [|discriminate]. intros [= <-]. repeat split.
Qed.

Lemma init_header_fields fp entries :
  let header := take 0x180 (drop (BinaryIO.position fp) (BinaryIO.contents fp)) in
  SRLReader.apptitle (SRLReader.init_header fp entries) = slice header 0 0x12
  /\ SRLReader._icon_offset (SRLReader.init_header fp entries)
     = util.readle (slice header 0x68 0x6c)
  /\ SRLReader.entries (SRLReader.init_header fp entries) = entries
  /\ BinaryIO.contents (SRLReader._file (SRLReader.init_header fp entries))
     = BinaryIO.contents fp.
Proof.
  unfold SRLReader.init_header, BinaryIO.read. cbn zeta.
  destruct (negb _); repeat split.
Qed.

Lemma slice_take {A} (l : list A) (n lo hi : nat) :
  (hi <= n)%nat -> slice (take n l) lo hi = slice l lo hi.
Proof.
  intros Hn. unfold slice. rewrite skipn_firstn_comm, take_take. f_equal. lia.
Qed.

Lemma slice_drop {A} (l : list A) (p lo hi : nat) :
  slice (drop p l) lo hi = slice l (p + lo) (p + hi).
Proof. unfold slice. rewrite drop_drop. f_equal. lia. Qed.

Lemma init_icon_offset fp entries r :
  SRLReader.init fp entries = Ok r ->
  SRLReader._icon_offset r = SRLReader._icon_offset (SRLReader.init_header fp entries)
  /\ 0 <= SRLReader._icon_offset r.
Proof.
  unfold SRLReader.init. intros Hinit.
  apply _load_icon_fields in Hinit as (_ & Ho & _).
  split; [exact Ho|]. rewrite Ho.
  destruct (init_header_fields fp entries) as (_ & -> & _).
  apply (readle_lt _ 4). unfold slice. rewrite length_take. lia.
Qed.

(** The header fields of a reader come from fixed places after the
    position at which the stream was handed over: the raw title is the
    0x12 bytes there, and the icon offset is the little-endian reading of
    the four bytes 0x68 further on.  So the title holds at most 0x12 bytes
    and the offset is a natural number below 2^32, whatever the stream
    holds. *)
Theorem reader_header_fields fp entries r :
  SRLReader.init fp entries = Ok r ->
  let p := BinaryIO.position fp in
  let b := BinaryIO.contents fp in
  SRLReader.apptitle r = slice b p (p + 0x12)
  /\ SRLReader._icon_offset r = util.readle (slice b (p + 0x68) (p + 0x6c))
  /\ (length (SRLReader.apptitle r) <= 0x12)%nat
  /\ 0 <= SRLReader._icon_offset r < 2 ^ 32.
Proof.
  unfold SRLReader.init. intros Hinit.
  apply _load_icon_fields in Hinit as (Ha & Ho & _). cbn zeta.
  destruct (init_header_fields fp entries) as (Ha' & Ho' & _).
  rewrite Ha, Ho, Ha', Ho'. rewrite !slice_take by lia. rewrite !slice_drop.
  rewrite Nat.add_0_r.
  split; [reflexivity|]. split; [reflexivity|]. split.
  - unfold slice. rewrite length_take. lia.
  - apply (readle_lt _ 4). unfold slice. rewrite length_take. lia.
Qed.

Lemma reader_header_fields_witness :
  exists r,
    SRLReader.init offset_stream icon_entries = Ok r
    /\ SRLReader._icon_offset r = 0x1000.
Proof.
  destruct (SRLReader.init offset_stream icon_entries) as [r|e] eqn:Hinit;
    [|vm_compute in Hinit; discriminate].
  exists r. split; [reflexivity|].
  destruct (reader_header_fields offset_stream icon_entries r Hinit) as (_ & Ho & _).
  rewrite Ho. vm_compute. reflexivity.
Defined.

(** What the icon attempt reads: the [SRLICON_SIZE] bytes of the stream
    at the icon offset, wherever the stream stands. *)
Lemma icon_attempt_block self :
  0 <= SRLReader._icon_offset self ->
  (SRLReader.icon_attempt self).1
  = SRLIcon.load_block
      (slice (BinaryIO.contents (SRLReader._file self))
             (Z.to_nat (SRLReader._icon_offset self))
             (Z.to_nat (SRLReader._icon_offset self) + 0x2400)).
Proof.
  intros Hoff. unfold SRLReader.icon_attempt, SRLIcon.load, SubsectionIO.read,
    SubsectionIO.new, BinaryIO.read, BinaryIO.seek, SRLICON_SIZE.
  cbn [SubsectionIO._offset SubsectionIO._size SubsectionIO._seek
       BinaryIO.contents BinaryIO.position fst].
  rewrite Z.add_0_r, Z.sub_0_r, Z.min_id. unfold slice. do 2 f_equal. lia.
Qed.

(** The icon of a reader is decided by the [SRLICON_SIZE] bytes of the
    stream at the icon offset that the header gives, and by nothing else:
    the reader holds the icon that [load] makes of those bytes, and no
    icon when [load] raises on them.  Loading the same bytes from a stream
    of their own, as [from_file] does, has the same outcome. *)
Theorem reader_icon_block fp entries r :
  SRLReader.init fp entries = Ok r ->
  let block :=
    slice (BinaryIO.contents fp)
          (Z.to_nat (SRLReader._icon_offset r))
          (Z.to_nat (SRLReader._icon_offset r) + 0x2400) in
  SRLReader.icon r
  = match SRLIcon.load_block block with
    | Ok i => Some i
    | Raise _ => None
    end
  /\ (SRLIcon.load_stream (stream_of block)).1 = SRLIcon.load_block block.
Proof.
  intros Hinit.
  destruct (init_icon_offset fp entries r Hinit) as (Hoff & Hrange).
  unfold SRLReader.init in Hinit.
  destruct (_load_icon_returns (SRLReader.init_header fp entries)) as (r' & Hr & Hicon).
  rewrite Hr in Hinit. injection Hinit as ->.
  rewrite init_header_icon in Hicon.
  rewrite icon_attempt_block in Hicon by (rewrite <- Hoff; lia).
  destruct (init_header_fields fp entries) as (_ & _ & _ & Hc).
  rewrite Hc, <- Hoff in Hicon. cbn zeta. split.
  - rewrite Hicon. destruct (SRLIcon.load_block _); reflexivity.
  - unfold SRLIcon.load_stream, stream_of, BinaryIO.read, SRLICON_SIZE.
    cbn [BinaryIO.contents BinaryIO.position fst]. rewrite drop_0. f_equal.
    apply take_ge. unfold slice. rewrite length_take. lia.
Qed.

Lemma reader_icon_block_witness :
  exists r,
    SRLReader.init lone_surrogate_stream ∅ = Ok r
    /\ SRLReader.icon r = None.
Proof.
  destruct (SRLReader.init lone_surrogate_stream ∅) as [r|e] eqn:Hinit;
    [|vm_compute in Hinit; discriminate].
  exists r. split; [reflexivity|].
  destruct (reader_icon_block lone_surrogate_stream ∅ r Hinit) as (Hicon & _).
  rewrite Hicon.
  destruct (init_icon_offset lone_surrogate_stream ∅ r Hinit) as (Hoff & _).
  rewrite Hoff. vm_compute. reflexivity.
Defined.

End reader_more.
